(** * pva2pva: the AnyScalar variant and the documented QSRV options

    A shallow embedding of [common/anyscalar.h] together with models of
    two options described in [documentation/qsrvpage.h] (the
    [Q:time:tag] nanosecond split and the [sevr] option of PVA links).

    [AnyScalar] keeps a type code [_stype] next to a raw buffer [_wrap]
    that is large enough for a [std::string].  The buffer is used through
    placement [new], explicit destructor calls, [memcpy] and
    [reinterpret_cast], so the embedding tracks

    - which object, if any, currently lives in the buffer, and
    - the character buffers owned by the live [std::string] objects, kept
      in a store that every operation threads through.

    Using the buffer as a [std::string] when no such object lives there
    has no defined behaviour in C++; the embedding reports it as
    [Undefined]. *)

From Stdlib Require Import ZArith String Bool Lia.
From stdpp Require Import base option gmap.

#[local] Set Warnings "-clear-no-such-hyp".

Open Scope Z_scope.

(** ** Scalar type codes and the C++ types behind them *)

(** The codes of [epics::pvData::ScalarType] that the header names through
    [ScalarTypeID] and [pvString].  The value [(ScalarType)-1], which is
    none of them, is [None] in [option ScalarType]. *)
Inductive ScalarType : Set :=
| pvBoolean | pvByte | pvShort | pvInt | pvLong
| pvUByte | pvUShort | pvUInt | pvULong
| pvFloat | pvDouble | pvString.

#[global] Instance ScalarType_eq_dec : EqDecision ScalarType.
Proof. solve_decision. Defined.

(** The trivially copyable scalar types. *)
Inductive pod_type : Set :=
| Tboolean | Tint8 | Tint16 | Tint32 | Tint64
| Tuint8 | Tuint16 | Tuint32 | Tuint64
| Tfloat | Tdouble.

#[global] Instance pod_type_eq_dec : EqDecision pod_type.
Proof. solve_decision. Defined.

(** The types that have a [ScalarTypeID]. *)
Inductive scalar_type : Set :=
| pod (t : pod_type)
| std_string.

#[global] Instance scalar_type_eq_dec : EqDecision scalar_type.
Proof. solve_decision. Defined.

(** The unqualified types a template argument [T] of the constructor and
    of [ref] may be. *)
Inductive cpp_type : Set :=
| scalar (t : scalar_type)
| char_ptr
| const_char_ptr.

(** A template argument: a type with its top-level [const]. *)
Record template_arg : Set := { is_const : bool; unqualified : cpp_type }.

(** [epics::pvData::meta::strip_const<T>::type] *)
Definition strip_const (T : template_arg) : cpp_type := unqualified T.

(** [detail::any_storage_type<T>::type]: the identity but for the two
    character pointer types. *)
Definition any_storage_type (T : cpp_type) : scalar_type :=
  match T with
  | scalar t => t
  | char_ptr => std_string
  | const_char_ptr => std_string
  end.

(** [epics::pvData::ScalarTypeID<T>::value] *)
Definition ScalarTypeID (T : scalar_type) : ScalarType :=
  match T with
  | pod Tboolean => pvBoolean
  | pod Tint8 => pvByte
  | pod Tint16 => pvShort
  | pod Tint32 => pvInt
  | pod Tint64 => pvLong
  | pod Tuint8 => pvUByte
  | pod Tuint16 => pvUShort
  | pod Tuint32 => pvUInt
  | pod Tuint64 => pvULong
  | pod Tfloat => pvFloat
  | pod Tdouble => pvDouble
  | std_string => pvString
  end.

(** [epics::pvData::ScalarTypeTraits<code>::type], the C++ type a code
    stands for. *)
Definition ScalarTypeTraits (c : ScalarType) : scalar_type :=
  match c with
  | pvBoolean => pod Tboolean
  | pvByte => pod Tint8
  | pvShort => pod Tint16
  | pvInt => pod Tint32
  | pvLong => pod Tint64
  | pvUByte => pod Tuint8
  | pvUShort => pod Tuint16
  | pvUInt => pod Tuint32
  | pvULong => pod Tuint64
  | pvFloat => pod Tfloat
  | pvDouble => pod Tdouble
  | pvString => std_string
  end.

(** ** Values *)

(** A scalar value.  A trivially copyable scalar is carried as the integer
    that encodes it (the number itself for the integer types and for
    [boolean], the IEEE-754 bit pattern for [float] and [double]);
    [AnyScalar] never inspects it. *)
Inductive value : Set :=
| VPod (t : pod_type) (z : Z)
| VString (s : string).

#[global] Instance value_eq_dec : EqDecision value.
Proof. solve_decision. Defined.

Definition type_of_value (v : value) : scalar_type :=
  match v with
  | VPod t _ => pod t
  | VString _ => std_string
  end.

(** What an lvalue of type [TT] holds. *)
Definition denote (TT : scalar_type) : Set :=
  match TT with
  | pod _ => Z
  | std_string => string
  end.

Definition to_value (TT : scalar_type) : denote TT -> value :=
  match TT with
  | pod t => fun z => VPod t z
  | std_string => fun s => VString s
  end.

(** An argument [T v] of the converting constructor and of the assignment
    from a value.  A character pointer designates NUL-terminated text. *)
Inductive argument : Set :=
| arg_scalar (v : value)
| arg_char_ptr (s : string)
| arg_const_char_ptr (s : string).

(** The deduced template argument [T]. *)
Definition type_of_argument (v : argument) : template_arg :=
  {| is_const := false;
     unqualified := match v with
                    | arg_scalar x => scalar (type_of_value x)
                    | arg_char_ptr _ => char_ptr
                    | arg_const_char_ptr _ => const_char_ptr
                    end |}.

(** [TT(v)], the argument converted to the storage type. *)
Definition to_storage_value (v : argument) : value :=
  match v with
  | arg_scalar x => x
  | arg_char_ptr s => VString s
  | arg_const_char_ptr s => VString s
  end.

(** ** The store of string buffers, outcomes, and the monad *)

(** A [std::string] object is represented by the location of the
    character buffer it owns. *)
Abbreviation loc := positive (only parsing).
Abbreviation heap := (gmap positive string) (only parsing).

Inductive exn : Set :=
| bad_cast           (* AnyScalar::bad_cast *)
| foreign_exception. (* anything thrown by castUnsafeV *)

Inductive outcome (A : Type) : Type :=
| Ok (a : A)
| Throws (e : exn)
| Undefined.
Arguments Ok {A} a.
Arguments Throws {A} e.
Arguments Undefined {A}.

Definition M (A : Type) : Type := heap -> outcome (A * heap).

Definition ret {A} (a : A) : M A := fun h => Ok (a, h).

Definition bind {A B} (m : M A) (k : A -> M B) : M B :=
  fun h => match m h with
           | Ok (a, h') => k a h'
           | Throws e => Throws e
           | Undefined => Undefined
           end.

Definition throw {A} (e : exn) : M A := fun _ => Throws e.
Definition undefined {A} : M A := fun _ => Undefined.

Declare Scope cxx_scope.
Delimit Scope cxx_scope with cxx.
Notation "x <- m ;; k" := (bind m (fun x => k))
  (at level 100, m at next level, right associativity) : cxx_scope.
Notation "'both' ( x , y ) <- m ;; k" := (bind m (fun xy => let '(x, y) := xy in k))
  (at level 100, x name, y name, m at next level, right associativity) : cxx_scope.
Notation "m ;;; k" := (bind m (fun _ => k))
  (at level 100, right associativity) : cxx_scope.
Open Scope cxx_scope.

(** ** The raw buffer and the [std::string] operations on it *)

(** What the bytes of [_wrap.blob] currently are. *)
Inductive storage : Set :=
| Indeterminate                 (* never written *)
| Pod (t : pod_type) (z : Z)    (* a scalar object of type [t] *)
| StdString (p : loc).          (* a std::string object whose buffer is [p] *)

(** [memcpy(dst, src, sizeof(blob))]: the destination becomes a bytewise
    copy of the source (so a copied [std::string] would share its buffer). *)
Definition memcpy (src : storage) : storage := src.

(** [_as<std::string>()] used as an object: the buffer must hold a
    [std::string] that has been constructed and not yet destroyed. *)
Definition the_string (w : storage) : M loc :=
  fun h => match w with
           | StdString p => match h !! p with
                            | Some _ => Ok (p, h)
                            | None => Undefined
                            end
           | _ => Undefined
           end.

(** [new (blob) std::string(s)]: a new object with a buffer of its own.
    Whatever the bytes held before is overwritten without being destroyed. *)
Definition string_construct (s : string) : M storage :=
  fun h => let p := fresh (dom h) in Ok (StdString p, <[p:=s]> h).

(** [x.~string()]: the buffer is released; the bytes stay behind. *)
Definition string_destroy (x : storage) : M unit :=
  p <- the_string x ;;
  fun h => Ok (tt, delete p h).

(** Reading the characters of [x]. *)
Definition string_value (x : storage) : M string :=
  p <- the_string x ;;
  fun h => match h !! p with
           | Some s => Ok (s, h)
           | None => Undefined
           end.

(** [x = s] for a string object [x]. *)
Definition string_assign (x : storage) (s : string) : M unit :=
  p <- the_string x ;;
  fun h => Ok (tt, <[p:=s]> h).

(** [x.swap(y)]: the two objects exchange their buffers. *)
Definition string_swap (x y : storage) : M (storage * storage) :=
  p <- the_string x ;;
  q <- the_string y ;;
  ret (StdString q, StdString p).

(** [x = std::move(y)]: [x] releases its buffer and takes over the one of
    [y], which is left holding an empty string. *)
Definition string_move_assign (x y : storage) : M (storage * storage) :=
  p <- the_string x ;;
  q <- the_string y ;;
  (fun h => Ok (tt, delete p h)) ;;;
  y' <- string_construct EmptyString ;;
  ret (StdString q, y').

(** [new (blob) TT(v)] *)
Definition placement_new (v : value) : M storage :=
  match v with
  | VPod t z => ret (Pod t z)
  | VString s => string_construct s
  end.

(** Reading the buffer through [_as<TT>()]. *)
Definition _as (TT : scalar_type) (w : storage) : M value :=
  match TT with
  | pod t => match w with
             | Pod t' z => if decide (t = t') then ret (VPod t z) else undefined
             | _ => undefined
             end
  | std_string => s <- string_value w ;; ret (VString s)
  end.

(** Assigning [x] through [_as<TT>()]. *)
Definition _as_assign (TT : scalar_type) (w : storage) : denote TT -> M storage :=
  match TT with
  | pod t => fun z => match w with
                      | Pod t' _ => if decide (t = t') then ret (Pod t z) else undefined
                      | _ => undefined
                      end
  | std_string => fun s => string_assign w s ;;; ret w
  end.

(** ** [class AnyScalar] *)

Record AnyScalar : Set := { _stype : option ScalarType; _wrap : storage }.

(** [AnyScalar()]: the code is [(ScalarType)-1], the buffer is left as it
    is. *)
Definition AnyScalar_nil : AnyScalar :=
  {| _stype := None; _wrap := Indeterminate |}.

(** [template<typename T> explicit AnyScalar(T v)] *)
Definition AnyScalar_of (v : argument) : M AnyScalar :=
  let T2 := strip_const (type_of_argument v) in
  let TT := any_storage_type T2 in
  w <- placement_new (to_storage_value v) ;;
  ret {| _stype := Some (ScalarTypeID TT); _wrap := w |}.

(** [AnyScalar(const AnyScalar& o)] *)
Definition AnyScalar_copy (o : AnyScalar) : M AnyScalar :=
  w <- (if decide (_stype o = Some pvString)
        then s <- string_value (_wrap o) ;; string_construct s
        else ret (memcpy (_wrap o))) ;;
  ret {| _stype := _stype o; _wrap := w |}.

(** [AnyScalar(AnyScalar&& o)]: yields the new object and what is left of
    [o].  The constructor does not initialise [_wrap], so in the string
    branch the move assignment has uninitialised bytes on its left. *)
Definition AnyScalar_move (o : AnyScalar) : M (AnyScalar * AnyScalar) :=
  both (w, ow) <- (if decide (_stype o = Some pvString)
                   then string_move_assign Indeterminate (_wrap o)
                   else ret (memcpy (_wrap o), _wrap o)) ;;
  ret ({| _stype := _stype o; _wrap := w |},
       {| _stype := None; _wrap := ow |}).

(** [~AnyScalar()] *)
Definition AnyScalar_destroy (a : AnyScalar) : M unit :=
  if decide (_stype a = Some pvString)
  then string_destroy (_wrap a)
  else ret tt.

(** [void swap(AnyScalar& o)]: yields the two objects afterwards, [*this]
    first.  The outer [match] is the switch on [_stype], the inner ones the
    switches on [o._stype]; the last line is [std::swap(_stype, o._stype)]. *)
Definition swap (this o : AnyScalar) : M (AnyScalar * AnyScalar) :=
  both (w, ow) <-
    match _stype this with
    | None =>
        match _stype o with
        | None =>                                    (* nil <-> nil *)
            ret (_wrap this, _wrap o)
        | Some pvString =>                           (* nil <-> string *)
            w1 <- string_construct EmptyString ;;
            both (w2, ow2) <- string_swap w1 (_wrap o) ;;
            string_destroy ow2 ;;;
            ret (w2, ow2)
        | Some _ =>                                  (* nil <-> non-string *)
            ret (memcpy (_wrap o), _wrap o)
        end
    | Some pvString =>
        match _stype o with
        | None =>                                    (* string <-> nil *)
            ow1 <- string_construct EmptyString ;;
            both (w2, ow2) <- string_swap (_wrap this) ow1 ;;
            string_destroy w2 ;;;
            ret (w2, ow2)
        | Some pvString =>                           (* string <-> string *)
            string_swap (_wrap this) (_wrap o)
        | Some _ =>                                  (* string <-> non-string *)
            temp <- string_construct EmptyString ;;
            both (temp1, w1) <- string_swap temp (_wrap this) ;;
            string_destroy w1 ;;;
            w2 <- ret (memcpy (_wrap o)) ;;
            ow1 <- string_construct EmptyString ;;
            both (temp2, ow2) <- string_swap temp1 ow1 ;;
            string_destroy temp2 ;;;                 (* end of temp's scope *)
            ret (w2, ow2)
        end
    | Some _ =>
        match _stype o with
        | None =>                                    (* non-string <-> nil *)
            ret (_wrap this, memcpy (_wrap this))
        | Some pvString =>                           (* non-string <-> string *)
            temp <- string_construct EmptyString ;;
            both (temp1, ow1) <- string_swap temp (_wrap o) ;;
            string_destroy ow1 ;;;
            ow2 <- ret (memcpy (_wrap this)) ;;
            w1 <- string_construct EmptyString ;;
            both (temp2, w2) <- string_swap temp1 w1 ;;
            string_destroy temp2 ;;;                 (* end of temp's scope *)
            ret (w2, ow2)
        | Some _ =>                                  (* non-string <-> non-string *)
            ret (_wrap o, _wrap this)
        end
    end ;;
  ret ({| _stype := _stype o; _wrap := w |},
       {| _stype := _stype this; _wrap := ow |}).

(** [AnyScalar& operator=(const AnyScalar& o)]: copy, swap, and the
    temporary is destroyed at the end of the full expression. *)
Definition assign (this o : AnyScalar) : M AnyScalar :=
  tmp <- AnyScalar_copy o ;;
  both (tmp', this') <- swap tmp this ;;
  AnyScalar_destroy tmp' ;;;
  ret this'.

(** [template<typename T> AnyScalar& operator=(T v)] *)
Definition assign_value (this : AnyScalar) (v : argument) : M AnyScalar :=
  tmp <- AnyScalar_of v ;;
  both (tmp', this') <- swap tmp this ;;
  AnyScalar_destroy tmp' ;;;
  ret this'.

(** [type()] *)
Definition type (a : AnyScalar) : option ScalarType := _stype a.

(** [empty()] *)
Definition empty (a : AnyScalar) : bool := bool_decide (_stype a = None).

(** [explicit operator bool()] (before C++11: the conversion to
    [bool_type], a null member pointer exactly when [empty()]). *)
Definition operator_bool (a : AnyScalar) : bool := negb (empty a).

(** The lvalue [ref<T>()] returns: the buffer of the object seen at type
    [referent]. *)
Record reference : Set := { referent : scalar_type }.

(** [template<typename T> TT& ref()] and its [const] overload. *)
Definition ref (T : template_arg) (a : AnyScalar) : M reference :=
  let T2 := strip_const T in
  let TT := any_storage_type T2 in
  if decide (_stype a <> Some (ScalarTypeID TT))
  then throw bad_cast
  else ret {| referent := TT |}.

(** Reading and assigning through a reference obtained from [a]. *)
Definition read_through (r : reference) (a : AnyScalar) : M value :=
  _as (referent r) (_wrap a).

Definition assign_through (r : reference) (a : AnyScalar)
    (x : denote (referent r)) : M AnyScalar :=
  w <- _as_assign (referent r) (_wrap a) x ;;
  ret {| _stype := _stype a; _wrap := w |}.

Section Conversion.

(** [epics::pvData::castUnsafeV] for one element: the conversion from the
    type of code [from] to the type of code [to].  It belongs to pvData
    and is a parameter here; [None] stands for any exception it throws. *)
Variable castUnsafeV : ScalarType -> ScalarType -> value -> option value.

(** [template<typename T> T as() const], for [T] being [T2] or
    [const T2].  ([ScalarTypeID<T2>] must exist, so [T2] is a scalar
    type and [TT] is [T2].) *)
Definition as_ (T2 : scalar_type) (a : AnyScalar) : M value :=
  match _stype a with
  | None => throw bad_cast
  | Some from =>
      src <- _as (ScalarTypeTraits from) (_wrap a) ;;
      match castUnsafeV (ScalarTypeID T2) from src with
      | Some ret_ => ret ret_
      | None => throw foreign_exception
      end
  end.

End Conversion.

(** A conversion table that copies between equal types and rejects every
    other pair; it instantiates the parameter in examples. *)
Definition copy_only (to from : ScalarType) (src : value) : option value :=
  if decide (to = from) then Some src else None.

(** ** The class invariant and the abstract content *)

(** The code and the buffer agree: a string code comes with a live
    [std::string], any other code with a scalar of the type it stands
    for.  Nothing is required of the buffer of an empty object. *)
Definition valid (a : AnyScalar) (h : heap) : bool :=
  match _stype a with
  | None => true
  | Some c =>
      match ScalarTypeTraits c, _wrap a with
      | pod t, Pod t' _ => bool_decide (t = t')
      | std_string, StdString p => bool_decide (is_Some (h !! p))
      | _, _ => false
      end
  end.

(** The value an object holds, [None] for an empty one. *)
Definition content (a : AnyScalar) (h : heap) : option value :=
  match _stype a with
  | None => None
  | Some c =>
      match ScalarTypeTraits c, _wrap a with
      | pod t, Pod t' z => if decide (t = t') then Some (VPod t z) else None
      | std_string, StdString p => VString <$> h !! p
      | _, _ => None
      end
  end.

(** The string buffer an object is responsible for releasing. *)
Definition buffer (a : AnyScalar) : option loc :=
  match _stype a, _wrap a with
  | Some pvString, StdString p => Some p
  | _, _ => None
  end.

(** What [valid] amounts to, by the kind of code. *)
Inductive shape (h : heap) : AnyScalar -> Prop :=
| shape_nil w :
    shape h {| _stype := None; _wrap := w |}
| shape_string p s :
    h !! p = Some s ->
    shape h {| _stype := Some pvString; _wrap := StdString p |}
| shape_pod c t z :
    ScalarTypeTraits c = pod t ->
    shape h {| _stype := Some c; _wrap := Pod t z |}.

(** Two objects that cannot be told apart: the same code and, unless
    they are empty, the same bytes. *)
Definition same (a b : AnyScalar) : Prop :=
  _stype a = _stype b /\ (_stype a <> None -> _wrap a = _wrap b).

(** The buffers an object owns, as a set. *)
Definition owned (a : AnyScalar) : gset positive :=
  match buffer a with
  | Some p => {[ p ]}
  | None => ∅
  end.

(** ** Stream output *)

Section Streaming.

(** The rows [CASE(BASETYPE, PVATYPE, DBFTYPE, PVACODE)] that the included
    table pvatypemap.h expands, reduced to the two columns the [CASE] macro of
    [operator<<] uses: the type [PVATYPE] and the code [pvPVACODE].  The
    table and the stream are parameters. *)
Variable pvatypemap : list (scalar_type * ScalarType).

Variable ostream : Type.

(** [strm << x] for a scalar or string [x], and for a string literal. *)
Variable put_value : ostream -> value -> ostream.
Variable put_text : ostream -> string -> ostream.

(** [std::ostream& operator<<(std::ostream& strm, const AnyScalar& v)]:
    the first row whose code is [v.type()] selects the type the buffer is
    read at; any other code, [(ScalarType)-1] included, takes the
    [default] label. *)
Definition operator_shl (strm : ostream) (v : AnyScalar) : M ostream :=
  match type v with
  | Some c =>
      match List.find (fun row => bool_decide (snd row = c)) pvatypemap with
      | Some (PVATYPE, _) =>
          x <- _as PVATYPE (_wrap v) ;;
          ret (put_value strm x)
      | None => ret (put_text strm "(nil)")
      end
  | None => ret (put_text strm "(nil)")
  end.

End Streaming.

(** What an operation produced, without the store. *)
Definition result {A} (r : outcome (A * heap)) : outcome A :=
  match r with
  | Ok (a, _) => Ok a
  | Throws e => Throws e
  | Undefined => Undefined
  end.

(** ** Sample objects

    A store with one string buffer, an object holding that string and an
    object holding a 32-bit integer; they instantiate the statements
    below. *)
Definition sample_store : gmap positive string :=
  {[ 1%positive := "abc"%string ]}.

Definition sample_string : AnyScalar :=
  {| _stype := Some pvString; _wrap := StdString 1 |}.

Definition sample_int : AnyScalar :=
  {| _stype := Some pvInt; _wrap := Pod Tint32 7 |}.

(** A table with two rows and a stream that keeps the text written so
    far; they instantiate the parameters of [operator_shl] below. *)
Definition sample_typemap : list (scalar_type * ScalarType) :=
  [ (pod Tint32, pvInt); (std_string, pvString) ].

Definition sample_put_value (strm : string) (x : value) : string :=
  match x with
  | VPod _ _ => strm ++ "<scalar>"
  | VString s => strm ++ s
  end.

Definition sample_put_text (strm : string) (s : string) : string := strm ++ s.

(** ** The documented QSRV options *)

(** Modelled from the spec: the timestamp tag transform of section 4.5
    (the info tag "Q:time:tag" with value "nsec:lsb:k" described in
    documentation/qsrvpage.h); the code applying it is not among the
    sources.  The result is the pair (userTag, nanoseconds), or [None] for
    a width that the configuration rejects. *)
Definition nsec_lsb (k : Z) (nsec : Z) : option (Z * Z) :=
  if (0 <=? k) && (k <=? 32)
  then let mask := Z.ones k in
       Some (Z.land nsec mask, Z.ldiff nsec mask)
  else None.

(** Modelled from the spec: the severity-propagation mode of a link
    (section 3; the values [false], [true] and "MSI" of the [sevr] key in
    documentation/qsrvpage.h). *)
Inductive sevr_mode : Set :=
| sevr_off
| sevr_on
| sevr_onlyIfInvalid.

(** Modelled from the spec: severity propagation of section 4.3; the link
    code is not among the sources and documentation/qsrvpage.h marks the
    option as not yet implemented.  Severities are levels [0 .. worst];
    the result is the local field's severity after an inbound update. *)
Definition propagate_sevr (worst : Z) (mode : sevr_mode)
    (remote local : Z) : Z :=
  match mode with
  | sevr_off => local
  | sevr_on => Z.max local remote
  | sevr_onlyIfInvalid =>
      if remote =? worst then Z.max local remote else local
  end.

(** * Properties *)

(** ** Stepping the monad *)

Lemma bind_Ok {A B} (m : M A) (k : A -> M B) (h h' : heap) a :
  m h = Ok (a, h') -> bind m k h = k a h'.
Proof. intros E. unfold bind. now rewrite E. Qed.

Lemma fresh_unused (h : heap) : h !! fresh (dom h) = None.
Proof. apply not_elem_of_dom, is_fresh. Qed.

Lemma fresh_differs (h : heap) p s : h !! p = Some s -> fresh (dom h) <> p.
Proof. intros E <-. rewrite fresh_unused in E. discriminate. Qed.

Lemma the_string_live (h : heap) p s :
  h !! p = Some s -> the_string (StdString p) h = Ok (p, h).
Proof. intros E. unfold the_string. now rewrite E. Qed.

Lemma string_value_live (h : heap) p s :
  h !! p = Some s -> string_value (StdString p) h = Ok (s, h).
Proof.
  intros E. unfold string_value.
  rewrite (bind_Ok _ _ _ _ _ (the_string_live h p s E)). now rewrite E.
Qed.

Lemma string_destroy_live (h : heap) p s :
  h !! p = Some s -> string_destroy (StdString p) h = Ok (tt, delete p h).
Proof.
  intros E. unfold string_destroy.
  now rewrite (bind_Ok _ _ _ _ _ (the_string_live h p s E)).
Qed.

Lemma string_assign_live (h : heap) p s s' :
  h !! p = Some s -> string_assign (StdString p) s' h = Ok (tt, <[p:=s']> h).
Proof.
  intros E. unfold string_assign.
  now rewrite (bind_Ok _ _ _ _ _ (the_string_live h p s E)).
Qed.

Lemma string_swap_live (h : heap) p q s t :
  h !! p = Some s -> h !! q = Some t ->
  string_swap (StdString p) (StdString q) h
  = Ok ((StdString q, StdString p), h).
Proof.
  intros Ep Eq. unfold string_swap.
  rewrite (bind_Ok _ _ _ _ _ (the_string_live h p s Ep)).
  now rewrite (bind_Ok _ _ _ _ _ (the_string_live h q t Eq)).
Qed.

(** A default-constructed string that is swapped with a live one and then
    destroyed leaves the store as it found it. *)
Lemma fresh_swap_destroy_l (h : heap) q s :
  h !! q = Some s ->
  (w1 <- string_construct EmptyString ;;
   both (w2, ow2) <- string_swap w1 (StdString q) ;;
   string_destroy ow2 ;;;
   ret (w2, ow2)) h
  = Ok ((StdString q, StdString (fresh (dom h))), h).
Proof.
  intros E. unfold string_construct at 1. unfold bind at 1.
  assert (Ef : <[fresh (dom h):=EmptyString]> h !! fresh (dom h) = Some EmptyString)
    by apply lookup_insert_eq.
  assert (Eq : <[fresh (dom h):=EmptyString]> h !! q = Some s)
    by (rewrite lookup_insert_ne; eauto using fresh_differs).
  rewrite (bind_Ok _ _ _ _ _ (string_swap_live _ _ _ _ _ Ef Eq)).
  rewrite (bind_Ok _ _ _ _ _ (string_destroy_live _ _ _ Ef)).
  unfold ret. now rewrite delete_insert_id by apply fresh_unused.
Qed.

Lemma fresh_swap_destroy_r (h : heap) p s :
  h !! p = Some s ->
  (ow1 <- string_construct EmptyString ;;
   both (w2, ow2) <- string_swap (StdString p) ow1 ;;
   string_destroy w2 ;;;
   ret (w2, ow2)) h
  = Ok ((StdString (fresh (dom h)), StdString p), h).
Proof.
  intros E. unfold string_construct at 1. unfold bind at 1.
  assert (Ef : <[fresh (dom h):=EmptyString]> h !! fresh (dom h) = Some EmptyString)
    by apply lookup_insert_eq.
  assert (Ep : <[fresh (dom h):=EmptyString]> h !! p = Some s)
    by (rewrite lookup_insert_ne; eauto using fresh_differs).
  rewrite (bind_Ok _ _ _ _ _ (string_swap_live _ _ _ _ _ Ep Ef)).
  rewrite (bind_Ok _ _ _ _ _ (string_destroy_live _ _ _ Ef)).
  unfold ret. now rewrite delete_insert_id by apply fresh_unused.
Qed.

(** The exchange through a temporary used when exactly one side holds a
    string: the string moves to the other buffer, the scalar bytes [w] are
    copied over, and both helper strings are gone afterwards. *)
Lemma exchange_through_temp (h : heap) p s (w : storage) :
  h !! p = Some s ->
  (temp <- string_construct EmptyString ;;
   both (temp1, w1) <- string_swap temp (StdString p) ;;
   string_destroy w1 ;;;
   w2 <- ret (memcpy w) ;;
   ow1 <- string_construct EmptyString ;;
   both (temp2, ow2) <- string_swap temp1 ow1 ;;
   string_destroy temp2 ;;;
   ret (w2, ow2)) h
  = Ok ((w, StdString p), h).
Proof.
  intros E. unfold string_construct at 1. unfold bind at 1.
  assert (Ef : <[fresh (dom h):=EmptyString]> h !! fresh (dom h) = Some EmptyString)
    by apply lookup_insert_eq.
  assert (Ep : <[fresh (dom h):=EmptyString]> h !! p = Some s)
    by (rewrite lookup_insert_ne; eauto using fresh_differs).
  rewrite (bind_Ok _ _ _ _ _ (string_swap_live _ _ _ _ _ Ef Ep)).
  rewrite (bind_Ok _ _ _ _ _ (string_destroy_live _ _ _ Ef)).
  rewrite delete_insert_id by apply fresh_unused.
  unfold ret at 1. unfold bind at 1.
  unfold string_construct at 1. unfold bind at 1.
  rewrite (bind_Ok _ _ _ _ _ (string_swap_live _ _ _ _ _ Ep Ef)).
  rewrite (bind_Ok _ _ _ _ _ (string_destroy_live _ _ _ Ef)).
  unfold ret, memcpy. now rewrite delete_insert_id by apply fresh_unused.
Qed.

Lemma exchange_through_temp_r (h : heap) p s (w : storage) :
  h !! p = Some s ->
  (temp <- string_construct EmptyString ;;
   both (temp1, ow1) <- string_swap temp (StdString p) ;;
   string_destroy ow1 ;;;
   ow2 <- ret (memcpy w) ;;
   w1 <- string_construct EmptyString ;;
   both (temp2, w2) <- string_swap temp1 w1 ;;
   string_destroy temp2 ;;;
   ret (w2, ow2)) h
  = Ok ((StdString p, w), h).
Proof.
  intros E. unfold string_construct at 1. unfold bind at 1.
  assert (Ef : <[fresh (dom h):=EmptyString]> h !! fresh (dom h) = Some EmptyString)
    by apply lookup_insert_eq.
  assert (Ep : <[fresh (dom h):=EmptyString]> h !! p = Some s)
    by (rewrite lookup_insert_ne; eauto using fresh_differs).
  rewrite (bind_Ok _ _ _ _ _ (string_swap_live _ _ _ _ _ Ef Ep)).
  rewrite (bind_Ok _ _ _ _ _ (string_destroy_live _ _ _ Ef)).
  rewrite delete_insert_id by apply fresh_unused.
  unfold ret at 1. unfold bind at 1.
  unfold string_construct at 1. unfold bind at 1.
  rewrite (bind_Ok _ _ _ _ _ (string_swap_live _ _ _ _ _ Ep Ef)).
  rewrite (bind_Ok _ _ _ _ _ (string_destroy_live _ _ _ Ef)).
  unfold ret, memcpy. now rewrite delete_insert_id by apply fresh_unused.
Qed.

(** ** Codes and types *)

Lemma ScalarTypeTraits_ID T : ScalarTypeTraits (ScalarTypeID T) = T.
Proof. destruct T as [[]|]; reflexivity. Qed.

Lemma ScalarTypeID_Traits c : ScalarTypeID (ScalarTypeTraits c) = c.
Proof. destruct c; reflexivity. Qed.

Lemma pod_owns_nothing c t z :
  ScalarTypeTraits c = pod t ->
  buffer {| _stype := Some c; _wrap := Pod t z |} = None.
Proof. destruct c; intros E; try reflexivity; discriminate. Qed.

(** ** The invariant *)

Lemma valid_shape a h : valid a h = true -> shape h a.
Proof.
  destruct a as [[c|] w]; [|constructor].
  unfold valid; cbn [_stype _wrap].
  destruct c, w; cbn; try discriminate; intros V;
    try (apply bool_decide_eq_true in V).
  all: try (subst; now constructor).
  all: destruct V as [s V]; now apply shape_string with s.
Qed.

Lemma shape_valid a h : shape h a -> valid a h = true.
Proof.
  intros [w|p s E|c t z E]; unfold valid; cbn [_stype _wrap].
  - reflexivity.
  - cbn. apply bool_decide_eq_true. eauto.
  - rewrite E. now apply bool_decide_eq_true.
Qed.

Lemma same_refl a : same a a.
Proof. now split. Qed.

Lemma same_sym a b : same a b -> same b a.
Proof. intros [E W]. split; [easy|]. intros N. symmetry. apply W. congruence. Qed.

Lemma same_trans a b c : same a b -> same b c -> same a c.
Proof.
  intros [E1 W1] [E2 W2]. split; [congruence|].
  intros N. rewrite W1 by easy. apply W2. congruence.
Qed.

Lemma same_eq a b : same a b -> _stype a <> None -> a = b.
Proof.
  destruct a, b. intros [E W] N. cbn in *. rewrite W by easy. congruence.
Qed.

Lemma same_content a b h : same a b -> content a h = content b h.
Proof.
  destruct a as [[c|] w], b as [[c'|] w']; intros [E W]; cbn in *;
    try discriminate; [|reflexivity].
  injection E as <-. rewrite W by easy. reflexivity.
Qed.

Lemma same_valid a b h : same a b -> valid a h = valid b h.
Proof.
  destruct a as [[c|] w], b as [[c'|] w']; intros [E W]; cbn in *;
    try discriminate; [|reflexivity].
  injection E as <-. rewrite W by easy. reflexivity.
Qed.

Lemma same_buffer a b : same a b -> buffer a = buffer b.
Proof.
  destruct a as [[c|] w], b as [[c'|] w']; intros [E W]; cbn in *;
    try discriminate; [|reflexivity].
  injection E as <-. rewrite W by easy. reflexivity.
Qed.

(** ** [swap] *)

Ltac step_with L :=
  erewrite bind_Ok by (eapply L; eassumption).

Lemma pod_code_match {A} c t (x y : A) :
  ScalarTypeTraits c = pod t ->
  match c with
  | pvString => x
  | _ => y
  end = y.
Proof. destruct c; intros E; try reflexivity; discriminate. Qed.

Lemma swap_spec this o h :
  valid this h = true -> valid o h = true ->
  exists this' o',
    swap this o h = Ok ((this', o'), h) /\ same this' o /\ same o' this.
Proof.
  intros Vt Vo. apply valid_shape in Vt, Vo.
  destruct Vt as [w|p s Ep|c t z Ec], Vo as [w'|p' s' Ep'|c' t' z' Ec'];
    unfold swap; cbn [_stype _wrap];
    rewrite ?(pod_code_match c' t') by assumption;
    rewrite ?(pod_code_match c t) by assumption;
    rewrite ?(pod_code_match c' t') by assumption.
  all: lazymatch goal with
       | |- context [string_construct] =>
           first [ step_with fresh_swap_destroy_l
                 | step_with fresh_swap_destroy_r
                 | step_with exchange_through_temp
                 | step_with exchange_through_temp_r ]
       | |- context [string_swap] => step_with string_swap_live
       | |- _ => idtac
       end.
  all: unfold bind, ret, memcpy; eexists _, _; split; [reflexivity|].
  all: split; split; cbn; congruence.
Qed.

(** ** Objects and the store *)

(** Validity and content depend on the store only through the buffer the
    object owns. *)
Lemma frame a (h h' : heap) :
  (forall p, buffer a = Some p -> h' !! p = h !! p) ->
  valid a h' = valid a h /\ content a h' = content a h.
Proof.
  destruct a as [[c|] w]; [|easy].
  destruct c, w; cbn; try easy.
  intros F. now rewrite F.
Qed.

Lemma buffer_live a (h : heap) p :
  valid a h = true -> buffer a = Some p -> is_Some (h !! p).
Proof.
  intros V. apply valid_shape in V.
  destruct V as [w|q s E|c t z E]; cbn; try discriminate.
  - intros [= <-]. eauto.
  - destruct c; discriminate.
Qed.

Lemma owned_live a (h : heap) : valid a h = true -> owned a ⊆ dom h.
Proof.
  intros V. unfold owned. destruct (buffer a) as [p|] eqn:B; [|set_solver].
  apply singleton_subseteq_l, elem_of_dom. eauto using buffer_live.
Qed.

(** ** Construction, copy and destruction *)

Lemma AnyScalar_of_spec v (h : heap) :
  exists a h',
    AnyScalar_of v h = Ok (a, h')
    /\ valid a h' = true
    /\ _stype a
       = Some (ScalarTypeID (any_storage_type (strip_const (type_of_argument v))))
    /\ content a h' = Some (to_storage_value v)
    /\ (forall p, buffer a = Some p -> h !! p = None)
    /\ (forall p s, h !! p = Some s -> h' !! p = Some s)
    /\ dom h' = dom h ∪ owned a.
Proof.
  assert (S : forall s T, T = Some pvString ->
    let a := {| _stype := T; _wrap := StdString (fresh (dom h)) |} in
    let h' := <[fresh (dom h):=s]> h in
    valid a h' = true /\ content a h' = Some (VString s)
    /\ (forall p, buffer a = Some p -> h !! p = None)
    /\ (forall p s0, h !! p = Some s0 -> h' !! p = Some s0)
    /\ dom h' = dom h ∪ owned a).
  { intros s T -> a h'. subst a h'. unfold valid, content, owned. cbn.
    rewrite lookup_insert_eq. repeat split.
    - intros p [= <-]. apply fresh_unused.
    - intros p s0 E. rewrite lookup_insert_ne; eauto using fresh_differs.
    - rewrite dom_insert_L. set_solver. }
  destruct v as [[t z|s]|s|s]; unfold AnyScalar_of; cbn.
  - eexists _, _. split; [reflexivity|].
    change (match t with Tboolean => pvBoolean | _ => _ end)
      with (ScalarTypeID (pod t)).
    pose proof (ScalarTypeTraits_ID (pod t)) as Tr.
    unfold owned. rewrite (pod_owns_nothing _ t z Tr).
    split; [apply shape_valid; now constructor|].
    split; [reflexivity|].
    split; [unfold content; cbn [_stype _wrap]; rewrite Tr;
            now rewrite decide_True by reflexivity|].
    split; [discriminate|]. split; [tauto|]. set_solver.
  - eexists _, _. split; [reflexivity|]. split; [|split; [reflexivity|]];
      now apply (S s (Some pvString)).
  - eexists _, _. split; [reflexivity|]. split; [|split; [reflexivity|]];
      now apply (S s (Some pvString)).
  - eexists _, _. split; [reflexivity|]. split; [|split; [reflexivity|]];
      now apply (S s (Some pvString)).
Qed.

Lemma AnyScalar_copy_spec o (h : heap) :
  valid o h = true ->
  exists c h',
    AnyScalar_copy o h = Ok (c, h')
    /\ valid c h' = true
    /\ _stype c = _stype o
    /\ content c h' = content o h
    /\ (forall p, buffer c = Some p -> h !! p = None)
    /\ (forall p s, h !! p = Some s -> h' !! p = Some s)
    /\ dom h' = dom h ∪ owned c.
Proof.
  intros V. apply valid_shape in V.
  destruct V as [w|q s E|c t z E]; unfold AnyScalar_copy; cbn [_stype _wrap].
  - cbn. eexists _, _. split; [reflexivity|].
    unfold owned; cbn. repeat split; try easy. set_solver.
  - rewrite decide_True by reflexivity.
    unfold bind at 1.
    rewrite (bind_Ok _ _ _ _ _ (string_value_live h q s E)).
    unfold string_construct, bind, ret.
    eexists _, _. split; [reflexivity|].
    unfold valid, content, owned. cbn. rewrite lookup_insert_eq, E.
    repeat split.
    + intros p [= <-]. apply fresh_unused.
    + intros p s0 E0. rewrite lookup_insert_ne; eauto using fresh_differs.
    + rewrite dom_insert_L. set_solver.
  - rewrite decide_False by (destruct c; discriminate).
    unfold bind, ret, memcpy. eexists _, _. split; [reflexivity|].
    assert (B : buffer {| _stype := Some c; _wrap := Pod t z |} = None)
      by (destruct c; reflexivity).
    unfold owned. rewrite B. repeat split; try easy.
    + apply shape_valid. now constructor.
    + set_solver.
Qed.

Lemma AnyScalar_destroy_spec a (h : heap) :
  valid a h = true ->
  exists h',
    AnyScalar_destroy a h = Ok (tt, h')
    /\ dom h' = dom h ∖ owned a
    /\ (forall p, buffer a <> Some p -> h' !! p = h !! p).
Proof.
  intros V. apply valid_shape in V.
  destruct V as [w|q s E|c t z E]; unfold AnyScalar_destroy; cbn [_stype _wrap].
  - cbn. eexists. split; [reflexivity|]. unfold owned; cbn. split; [set_solver|easy].
  - rewrite decide_True by reflexivity.
    rewrite (string_destroy_live h q s E).
    eexists. split; [reflexivity|]. unfold owned; cbn. split.
    + now rewrite dom_delete_L.
    + intros p N. apply lookup_delete_ne. congruence.
  - rewrite decide_False by (destruct c; discriminate).
    assert (B : buffer {| _stype := Some c; _wrap := Pod t z |} = None)
      by (destruct c; reflexivity).
    eexists. split; [reflexivity|]. unfold owned. rewrite B.
    split; [set_solver|easy].
Qed.

(** ** Assignment *)

Lemma owned_fresh a (h : heap) :
  (forall p, buffer a = Some p -> h !! p = None) -> owned a ## dom h.
Proof.
  intros F. unfold owned. destruct (buffer a) as [p|]; [|set_solver].
  apply disjoint_singleton_l, not_elem_of_dom. now apply F.
Qed.

Lemma same_owned a b : same a b -> owned a = owned b.
Proof. intros S. unfold owned. now rewrite (same_buffer _ _ S). Qed.

(** The tail shared by both assignment operators: the temporary is swapped
    with the target and then destroyed, taking the target's former string
    with it. *)
Lemma swap_and_destroy tmp this (h1 : heap) :
  valid tmp h1 = true -> valid this h1 = true ->
  (forall p, buffer tmp = Some p -> buffer this <> Some p) ->
  exists this' h',
    (both (tmp', this') <- swap tmp this ;;
     AnyScalar_destroy tmp' ;;;
     ret this') h1 = Ok (this', h')
    /\ same this' tmp
    /\ valid this' h' = true
    /\ content this' h' = content tmp h1
    /\ dom h' = dom h1 ∖ owned this
    /\ (forall p, buffer this <> Some p -> h' !! p = h1 !! p).
Proof.
  intros Vtmp Vthis D.
  destruct (swap_spec tmp this h1 Vtmp Vthis) as (tmp' & this' & E & S1 & S2).
  assert (Vtmp' : valid tmp' h1 = true) by now rewrite (same_valid _ _ h1 S1).
  destruct (AnyScalar_destroy_spec tmp' h1 Vtmp') as (h' & Ed & Dom & Keep).
  exists this', h'.
  rewrite (bind_Ok _ _ _ _ _ E). cbn beta iota.
  rewrite (bind_Ok _ _ _ _ _ Ed). unfold ret.
  rewrite (same_buffer _ _ S1) in Keep. rewrite (same_owned _ _ S1) in Dom.
  assert (F : forall p, buffer this' = Some p -> h' !! p = h1 !! p).
  { intros p B. apply Keep. apply D. now rewrite <- (same_buffer _ _ S2). }
  destruct (frame this' h1 h' F) as [Fv Fc].
  repeat split; try assumption.
  - now apply S2.
  - now apply S2.
  - now rewrite Fv, (same_valid _ _ h1 S2).
  - now rewrite Fc, (same_content _ _ h1 S2).
Qed.

Lemma preserved_frame a (h h1 : heap) :
  valid a h = true ->
  (forall p s, h !! p = Some s -> h1 !! p = Some s) ->
  valid a h1 = true /\ content a h1 = content a h.
Proof.
  intros V P.
  assert (F : forall p, buffer a = Some p -> h1 !! p = h !! p).
  { intros p B. destruct (buffer_live a h p V B) as [s E].
    now rewrite E, (P p s E). }
  destruct (frame a h h1 F) as [Fv Fc]. split; congruence.
Qed.

Lemma assign_spec this o (h : heap) :
  valid this h = true -> valid o h = true ->
  exists this' h',
    assign this o h = Ok (this', h')
    /\ valid this' h' = true
    /\ _stype this' = _stype o
    /\ content this' h' = content o h
    /\ dom h' = (dom h ∖ owned this) ∪ owned this'
    /\ (buffer this = None \/ buffer this <> buffer o ->
        valid o h' = true /\ content o h' = content o h).
Proof.
  intros Vthis Vo.
  destruct (AnyScalar_copy_spec o h Vo)
    as (tmp & h1 & Ec & Vtmp & Ttmp & Ctmp & Fresh & Keep1 & Dom1).
  destruct (preserved_frame this h h1 Vthis Keep1) as [Vthis1 _].
  assert (D : forall p, buffer tmp = Some p -> buffer this <> Some p).
  { intros p B B'. destruct (buffer_live this h p Vthis B') as [s E].
    rewrite (Fresh p B) in E. discriminate. }
  destruct (swap_and_destroy tmp this h1 Vtmp Vthis1 D)
    as (this' & h' & E & S & V' & C' & Dom' & Keep').
  exists this', h'. unfold assign.
  rewrite (bind_Ok _ _ _ _ _ Ec), E.
  split; [reflexivity|]. split; [assumption|].
  split; [destruct S as [-> _]; assumption|].
  split; [congruence|].
  split.
  { rewrite Dom', Dom1, (same_owned _ _ S).
    pose proof (owned_fresh tmp h Fresh). pose proof (owned_live this h Vthis).
    set_solver. }
  intros Sep.
  assert (F : forall p, buffer o = Some p -> h' !! p = h !! p).
  { intros p B. destruct (buffer_live o h p Vo B) as [s Es].
    rewrite Keep' by (destruct Sep as [N|N]; congruence).
    now rewrite Es, (Keep1 p s Es). }
  destruct (frame o h h' F). split; congruence.
Qed.

Lemma assign_value_spec this v (h : heap) :
  valid this h = true ->
  exists this' h',
    assign_value this v h = Ok (this', h')
    /\ valid this' h' = true
    /\ _stype this'
       = Some (ScalarTypeID (any_storage_type (strip_const (type_of_argument v))))
    /\ content this' h' = Some (to_storage_value v)
    /\ dom h' = (dom h ∖ owned this) ∪ owned this'.
Proof.
  intros Vthis.
  destruct (AnyScalar_of_spec v h)
    as (tmp & h1 & Ec & Vtmp & Ttmp & Ctmp & Fresh & Keep1 & Dom1).
  destruct (preserved_frame this h h1 Vthis Keep1) as [Vthis1 _].
  assert (D : forall p, buffer tmp = Some p -> buffer this <> Some p).
  { intros p B B'. destruct (buffer_live this h p Vthis B') as [s E].
    rewrite (Fresh p B) in E. discriminate. }
  destruct (swap_and_destroy tmp this h1 Vtmp Vthis1 D)
    as (this' & h' & E & S & V' & C' & Dom' & Keep').
  exists this', h'. unfold assign_value.
  rewrite (bind_Ok _ _ _ _ _ Ec), E.
  repeat split; try assumption.
  - destruct S as [-> _]. assumption.
  - congruence.
  - rewrite Dom', Dom1, (same_owned _ _ S).
    pose proof (owned_fresh tmp h Fresh). pose proof (owned_live this h Vthis).
    set_solver.
Qed.

(** ** Reading: [as] and [ref] *)

(** Reading the buffer at the type of the code yields the content, and is
    undefined for an object that breaks the invariant. *)
Lemma load_content a c (h : heap) :
  _stype a = Some c ->
  _as (ScalarTypeTraits c) (_wrap a) h
  = match content a h with
    | Some v => Ok (v, h)
    | None => Undefined
    end.
Proof.
  destruct a as [st w]; cbn [_stype _wrap]. intros ->.
  unfold content; cbn [_stype _wrap].
  destruct (ScalarTypeTraits c) as [t|]; cbn [_as].
  - destruct w as [|t' z|p]; try reflexivity.
    now destruct (decide (t = t')).
  - destruct w as [|t' z|p]; try reflexivity.
    unfold string_value, the_string, bind, ret.
    destruct (h !! p) as [s|] eqn:E; cbn; rewrite ?E; reflexivity.
Qed.

Lemma as_unfold cast T2 a (h : heap) :
  as_ cast T2 a h
  = match _stype a with
    | None => Throws bad_cast
    | Some from =>
        match content a h with
        | None => Undefined
        | Some src =>
            match cast (ScalarTypeID T2) from src with
            | Some r => Ok (r, h)
            | None => Throws foreign_exception
            end
        end
    end.
Proof.
  unfold as_. destruct (_stype a) as [c|] eqn:E; [|reflexivity].
  unfold bind. rewrite (load_content a c h E).
  destruct (content a h); [|reflexivity].
  now destruct (cast _ _ _).
Qed.

Lemma content_type a c v (h : heap) :
  _stype a = Some c -> content a h = Some v ->
  type_of_value v = ScalarTypeTraits c.
Proof.
  destruct a as [st w]; cbn [_stype]. intros ->. unfold content; cbn.
  destruct (ScalarTypeTraits c) as [t|], w as [|t' z|p]; try discriminate.
  - destruct (decide (t = t')); [|discriminate]. now intros [= <-].
  - destruct (h !! p); [|discriminate]. now intros [= <-].
Qed.

Lemma content_valid a (h : heap) :
  valid a h = true -> _stype a <> None -> is_Some (content a h).
Proof.
  intros V N. apply valid_shape in V.
  destruct V as [w|p s E|c t z E]; unfold content; cbn [_stype _wrap].
  - now destruct N.
  - cbn. rewrite E. eauto.
  - rewrite E. rewrite decide_True by reflexivity. eauto.
Qed.

Lemma ref_unfold T a (h : heap) :
  ref T a h
  = if decide (_stype a = Some (ScalarTypeID (any_storage_type (strip_const T))))
    then Ok ({| referent := any_storage_type (strip_const T) |}, h)
    else Throws bad_cast.
Proof.
  unfold ref.
  destruct (decide (_stype a = _)) as [E|N].
  - now rewrite decide_False by tauto.
  - now rewrite decide_True by assumption.
Qed.

Lemma read_through_content TT a (h : heap) :
  _stype a = Some (ScalarTypeID TT) ->
  read_through {| referent := TT |} a h
  = match content a h with
    | Some v => Ok (v, h)
    | None => Undefined
    end.
Proof.
  intros E. unfold read_through; cbn [referent].
  rewrite <- (load_content a _ h E). now rewrite ScalarTypeTraits_ID.
Qed.

Lemma assign_through_spec TT a (x : denote TT) (h : heap) :
  valid a h = true -> _stype a = Some (ScalarTypeID TT) ->
  exists a2 h2,
    assign_through {| referent := TT |} a x h = Ok (a2, h2)
    /\ valid a2 h2 = true
    /\ _stype a2 = _stype a
    /\ content a2 h2 = Some (to_value TT x)
    /\ buffer a2 = buffer a
    /\ dom h2 = dom h
    /\ (forall p, buffer a <> Some p -> h2 !! p = h !! p).
Proof.
  intros V E. apply valid_shape in V.
  destruct V as [w|p s Ep|c t z Ec]; cbn [_stype] in E.
  - discriminate.
  - injection E as E. destruct TT as [[]|]; try discriminate E.
    unfold assign_through; cbn [referent _as_assign _wrap _stype].
    unfold bind at 1. unfold bind at 1.
    rewrite (string_assign_live h p s x Ep). unfold ret.
    eexists _, _. split; [reflexivity|].
    unfold valid, content; cbn. rewrite lookup_insert_eq.
    repeat split.
    + rewrite dom_insert_L. apply elem_of_dom_2 in Ep. set_solver.
    + intros q N. apply lookup_insert_ne. congruence.
  - injection E as ->. rewrite ScalarTypeTraits_ID in Ec. subst TT.
    unfold assign_through; cbn [referent _as_assign _wrap _stype].
    rewrite decide_True by reflexivity. unfold bind, ret.
    eexists _, _. split; [reflexivity|].
    unfold valid, content; cbn [_stype _wrap].
    rewrite ScalarTypeTraits_ID. rewrite decide_True by reflexivity.
    repeat split; try easy.
    all: try now apply bool_decide_eq_true.
    all: destruct t; reflexivity.
Qed.

(** ** C1: construction, [as] and [ref] *)

Section RoundTrip.

Variable castUnsafeV : ScalarType -> ScalarType -> value -> option value.

(** The one fact about pvData's conversion used here: converting a value
    to the type it already has copies it. *)
Hypothesis castUnsafeV_same_type :
  forall v : value,
    castUnsafeV (ScalarTypeID (type_of_value v))
                (ScalarTypeID (type_of_value v)) v = Some v.

(** C1.  For every scalar type [T] (with or without [const]) and every
    value [v] of that type: constructing an [AnyScalar] from [v] succeeds
    and [as<T>()] on it returns [v]; [ref<T>()] returns a reference to
    the stored object, reading through it gives [v], and after assigning
    any [x] through it [as<T>()] on the same object returns [x]. *)
Theorem construct_as_ref_round_trip (c : bool) (v : value) (h : heap) :
  let T := type_of_value v in
  exists a h',
    AnyScalar_of (arg_scalar v) h = Ok (a, h')
    /\ as_ castUnsafeV T a h' = Ok (v, h')
    /\ ref {| is_const := c; unqualified := scalar T |} a h'
       = Ok ({| referent := T |}, h')
    /\ read_through {| referent := T |} a h' = Ok (v, h')
    /\ forall x : denote T,
         exists a2 h2,
           assign_through {| referent := T |} a x h' = Ok (a2, h2)
           /\ as_ castUnsafeV T a2 h2 = Ok (to_value T x, h2).
Proof.
  intros T.
  destruct (AnyScalar_of_spec (arg_scalar v) h)
    as (a & h' & E & V & Ty & C & _).
  cbn in Ty, C. fold T in Ty.
  exists a, h'. split; [assumption|]. repeat split.
  - rewrite as_unfold, Ty, C. unfold T. now rewrite castUnsafeV_same_type.
  - rewrite ref_unfold. cbn. now rewrite decide_True by assumption.
  - now rewrite (read_through_content T a h' Ty), C.
  - intros x.
    destruct (assign_through_spec T a x h' V Ty)
      as (a2 & h2 & E2 & V2 & Ty2 & C2 & _).
    exists a2, h2. split; [assumption|].
    rewrite as_unfold, Ty2, Ty, C2.
    assert (Tx : type_of_value (to_value T x) = T)
      by (destruct T; reflexivity).
    pose proof (castUnsafeV_same_type (to_value T x)) as Cx.
    rewrite Tx in Cx. now rewrite Cx.
Qed.

(** The same through a character pointer, [char*] or [const char*]: the
    text is stored as a [std::string], exactly as if a [std::string] had
    been passed, and is read back with [as<std::string>()]. *)
Lemma construct_from_text_round_trip (s : string) (h : heap) :
  forall v : argument,
    v = arg_char_ptr s \/ v = arg_const_char_ptr s ->
    exists a h',
      AnyScalar_of v h = Ok (a, h')
      /\ AnyScalar_of (arg_scalar (VString s)) h = Ok (a, h')
      /\ type a = Some pvString
      /\ as_ castUnsafeV std_string a h' = Ok (VString s, h').
Proof.
  intros v Hv.
  assert (Ev : AnyScalar_of v h = AnyScalar_of (arg_scalar (VString s)) h)
    by (destruct Hv as [-> | ->]; reflexivity).
  destruct (AnyScalar_of_spec (arg_scalar (VString s)) h)
    as (a & h' & E & V & Ty & C & _).
  cbn in Ty, C. exists a, h'. rewrite Ev.
  split; [assumption|]. split; [assumption|]. split; [assumption|].
  rewrite as_unfold, Ty, C.
  exact (f_equal (fun r => match r with
                           | Some r => Ok (r, h')
                           | None => Throws foreign_exception
                           end)
                 (castUnsafeV_same_type (VString s))).
Qed.

End RoundTrip.

Lemma copy_only_same_type (v : value) :
  copy_only (ScalarTypeID (type_of_value v)) (ScalarTypeID (type_of_value v)) v
  = Some v.
Proof. unfold copy_only. now rewrite decide_True by reflexivity. Qed.

Lemma construct_as_ref_round_trip_witness :
  exists a h',
    AnyScalar_of (arg_scalar (VString "pv:name")) (∅ : heap) = Ok (a, h')
    /\ as_ copy_only std_string a h' = Ok (VString "pv:name", h')
    /\ ref {| is_const := true; unqualified := scalar std_string |} a h'
       = Ok ({| referent := std_string |}, h')
    /\ read_through {| referent := std_string |} a h' = Ok (VString "pv:name", h')
    /\ forall x : string,
         exists a2 h2,
           assign_through {| referent := std_string |} a x h' = Ok (a2, h2)
           /\ as_ copy_only std_string a2 h2 = Ok (VString x, h2).
Proof.
  exact (construct_as_ref_round_trip copy_only copy_only_same_type
           true (VString "pv:name") ∅).
Defined.

(** ** C4: when [as] throws [bad_cast] *)




(** ** C5: [ref] is strict *)



(** ** C7: emptiness as the only false *)

(** C7.  The conversion to [bool] is false exactly when the object is
    empty, that is when its code is [(ScalarType)-1]; a default-constructed
    object is empty; and an object constructed from any value whatsoever,
    a zero included, converts to true and holds that value. *)
Theorem operator_bool_false_iff_empty (a : AnyScalar) :
  (operator_bool a = false <-> empty a = true)
  /\ (empty a = true <-> _stype a = None)
  /\ operator_bool AnyScalar_nil = false
  /\ forall (v : argument) (h : heap),
       exists b h',
         AnyScalar_of v h = Ok (b, h')
         /\ operator_bool b = true
         /\ content b h' = Some (to_storage_value v).
Proof.
  unfold operator_bool, empty. repeat split.
  - now intros ->%negb_false_iff.
  - now intros ->.
  - now intros ?%bool_decide_eq_true.
  - intros E. now apply bool_decide_eq_true.
  - intros v h.
    destruct (AnyScalar_of_spec v h) as (b & h' & E & _ & Ty & C & _).
    exists b, h'. rewrite Ty. now cbn.
Qed.

(** ** C6: one representation, deep copies *)

(** C6.  Storing a value by assignment leaves a valid object whose code is
    the code of the type just stored and whose single content is that
    value.  Copy-constructing from an object that holds a string gives a
    valid object holding an equal string in a buffer of its own, the
    source staying as it was; assigning a new string through [ref] of
    either object afterwards does not change the string of the other. *)
Theorem one_representation_and_deep_copy
    (this o : AnyScalar) (v : argument) (s : string) (h : heap) :
  valid this h = true ->
  valid o h = true ->
  content o h = Some (VString s) ->
  (exists this' h',
     assign_value this v h = Ok (this', h')
     /\ valid this' h' = true
     /\ type this'
        = Some (ScalarTypeID (any_storage_type (strip_const (type_of_argument v))))
     /\ content this' h' = Some (to_storage_value v))
  /\ (exists c h1,
        AnyScalar_copy o h = Ok (c, h1)
        /\ valid c h1 = true /\ valid o h1 = true
        /\ type c = Some pvString
        /\ content c h1 = Some (VString s)
        /\ content o h1 = Some (VString s)
        /\ buffer c <> buffer o
        /\ forall x : string,
             (exists c2 h2,
                assign_through {| referent := std_string |} c x h1 = Ok (c2, h2)
                /\ content c2 h2 = Some (VString x)
                /\ content o h2 = Some (VString s))
             /\ (exists o2 h2,
                   assign_through {| referent := std_string |} o x h1 = Ok (o2, h2)
                   /\ content o2 h2 = Some (VString x)
                   /\ content c h2 = Some (VString s))).
Proof.
  intros Vthis Vo Co. split.
  - destruct (assign_value_spec this v h Vthis) as (this' & h' & E & V & Ty & C & _).
    now exists this', h'.
  - assert (To : _stype o = Some pvString).
    { destruct (_stype o) as [c|] eqn:E; [|now unfold content in Co; rewrite E in Co].
      pose proof (content_type o c _ h E Co) as Tc.
      destruct c; try discriminate Tc. reflexivity. }
    destruct (AnyScalar_copy_spec o h Vo)
      as (c & h1 & E & Vc & Tc & Cc & Fresh & Keep & _).
    destruct (preserved_frame o h h1 Vo Keep) as [Vo1 Co1].
    assert (Bo : exists p, buffer o = Some p).
    { apply valid_shape in Vo. destruct Vo as [w|p s' Ep|c' t z Ec]; cbn in To.
      - discriminate.
      - now exists p.
      - injection To as ->. discriminate. }
    assert (Tc' : _stype c = Some pvString) by congruence.
    assert (Bc : exists q, buffer c = Some q).
    { pose proof Tc' as T. apply valid_shape in Vc.
      destruct Vc as [w|q s' Eq|c' t z Ec]; cbn in T.
      - discriminate.
      - now exists q.
      - injection T as ->. discriminate. }
    destruct Bo as [p Bo], Bc as [q Bc].
    assert (Npq : q <> p).
    { intros ->. destruct (buffer_live o h p Vo Bo) as [s' Es].
      rewrite (Fresh p Bc) in Es. discriminate. }
    exists c, h1. unfold type. rewrite Tc, Cc, Co1, Co, Bo, Bc.
    repeat split; try assumption; try congruence.
    + destruct (assign_through_spec std_string c x h1 Vc Tc')
        as (c2 & h2 & E2 & _ & _ & C2 & _ & _ & K2).
      exists c2, h2. repeat split; try assumption.
      assert (F : forall r, buffer o = Some r -> h2 !! r = h1 !! r).
      { intros r Br. apply K2. congruence. }
      destruct (frame o h1 h2 F) as [_ ->]. congruence.
    + destruct (assign_through_spec std_string o x h1 Vo1 To)
        as (o2 & h2 & E2 & _ & _ & C2 & _ & _ & K2).
      exists o2, h2. repeat split; try assumption.
      assert (F : forall r, buffer c = Some r -> h2 !! r = h1 !! r).
      { intros r Br. apply K2. congruence. }
      destruct (frame c h1 h2 F) as [_ ->]. congruence.
Qed.

Lemma one_representation_and_deep_copy_witness :
  (exists this' h',
     assign_value sample_int (arg_const_char_ptr "xyz") sample_store
     = Ok (this', h')
     /\ valid this' h' = true
     /\ type this' = Some pvString
     /\ content this' h' = Some (VString "xyz"))
  /\ (exists c h1,
        AnyScalar_copy sample_string sample_store = Ok (c, h1)
        /\ valid c h1 = true /\ valid sample_string h1 = true
        /\ type c = Some pvString
        /\ content c h1 = Some (VString "abc")
        /\ content sample_string h1 = Some (VString "abc")
        /\ buffer c <> buffer sample_string
        /\ forall x : string,
             (exists c2 h2,
                assign_through {| referent := std_string |} c x h1 = Ok (c2, h2)
                /\ content c2 h2 = Some (VString x)
                /\ content sample_string h2 = Some (VString "abc"))
             /\ (exists o2 h2,
                   assign_through {| referent := std_string |} sample_string x h1
                   = Ok (o2, h2)
                   /\ content o2 h2 = Some (VString x)
                   /\ content c h2 = Some (VString "abc"))).
Proof.
  apply (one_representation_and_deep_copy
           sample_int sample_string (arg_const_char_ptr "xyz") "abc"
           sample_store); vm_compute; reflexivity.
Defined.

(** For contrast: had the string branch copied the bytes as the other
    branch does, the copy would share the buffer, and a string assigned
    through one object would show up in the other. *)
Example bytewise_copy_would_alias :
  let c := {| _stype := _stype sample_string;
              _wrap := memcpy (_wrap sample_string) |} in
  buffer c = buffer sample_string
  /\ exists c2 h2,
       assign_through {| referent := std_string |} c "xyz"%string sample_store
       = Ok (c2, h2)
       /\ content sample_string h2 = Some (VString "xyz").
Proof.
  split; [reflexivity|]. eexists _, _. split; vm_compute; reflexivity.
Qed.

(** ** C2 and C3: [swap] and assignment *)

(** C2.  For valid operands, whatever their codes (empty, string or
    other), [swap] is defined and leaves the store exactly as it was: no
    buffer is lost and none is left over.  Each operand ends up valid with
    the former code, content and string buffer of the other.  Both
    assignment operators are defined as well: the target ends up valid
    with the code and content of the source, and the store afterwards
    consists of the former buffers without the one the target owned, plus
    the one it owns now; a source distinct from the target is unchanged. *)
Theorem swap_and_assignment_total (this o : AnyScalar) (h : heap) :
  valid this h = true ->
  valid o h = true ->
  (exists this' o',
     swap this o h = Ok ((this', o'), h)
     /\ valid this' h = true /\ valid o' h = true
     /\ type this' = type o /\ type o' = type this
     /\ content this' h = content o h /\ content o' h = content this h
     /\ buffer this' = buffer o /\ buffer o' = buffer this)
  /\ (exists this' h',
        assign this o h = Ok (this', h')
        /\ valid this' h' = true
        /\ type this' = type o
        /\ content this' h' = content o h
        /\ dom h' = (dom h ∖ owned this) ∪ owned this'
        /\ (buffer this = None \/ buffer this <> buffer o ->
            valid o h' = true /\ content o h' = content o h))
  /\ (forall v : argument,
        exists this' h',
          assign_value this v h = Ok (this', h')
          /\ valid this' h' = true
          /\ type this'
             = Some (ScalarTypeID (any_storage_type (strip_const (type_of_argument v))))
          /\ content this' h' = Some (to_storage_value v)
          /\ dom h' = (dom h ∖ owned this) ∪ owned this').
Proof.
  intros Vthis Vo. split; [|split].
  - destruct (swap_spec this o h Vthis Vo) as (this' & o' & E & S1 & S2).
    exists this', o'. unfold type.
    rewrite (same_valid _ _ h S1), (same_valid _ _ h S2),
      (same_content _ _ h S1), (same_content _ _ h S2),
      (same_buffer _ _ S1), (same_buffer _ _ S2).
    destruct S1 as [-> _], S2 as [-> _]. now repeat split.
  - apply assign_spec; assumption.
  - intros v. apply assign_value_spec; assumption.
Qed.

Lemma swap_and_assignment_total_witness :
  (exists this' o',
     swap sample_string sample_int sample_store = Ok ((this', o'), sample_store)
     /\ valid this' sample_store = true /\ valid o' sample_store = true
     /\ type this' = type sample_int /\ type o' = type sample_string
     /\ content this' sample_store = content sample_int sample_store
     /\ content o' sample_store = content sample_string sample_store
     /\ buffer this' = buffer sample_int /\ buffer o' = buffer sample_string)
  /\ (exists this' h',
        assign sample_string sample_int sample_store = Ok (this', h')
        /\ valid this' h' = true
        /\ type this' = type sample_int
        /\ content this' h' = content sample_int sample_store
        /\ dom h' = (dom sample_store ∖ owned sample_string) ∪ owned this'
        /\ (buffer sample_string = None \/ buffer sample_string <> buffer sample_int ->
            valid sample_int h' = true
            /\ content sample_int h' = content sample_int sample_store))
  /\ (forall v : argument,
        exists this' h',
          assign_value sample_string v sample_store = Ok (this', h')
          /\ valid this' h' = true
          /\ type this'
             = Some (ScalarTypeID (any_storage_type (strip_const (type_of_argument v))))
          /\ content this' h' = Some (to_storage_value v)
          /\ dom h' = (dom sample_store ∖ owned sample_string) ∪ owned this').
Proof.
  apply (swap_and_assignment_total sample_string sample_int sample_store);
    vm_compute; reflexivity.
Defined.

(** C3.  For valid operands with any pair of codes, swapping twice is
    defined, leaves the store as it was, and gives back two objects with
    the original codes and contents; an operand that was not empty is
    restored exactly. *)
Theorem swap_twice_restores (this o : AnyScalar) (h : heap) :
  valid this h = true ->
  valid o h = true ->
  exists a b,
    (both (x, y) <- swap this o ;; swap x y) h = Ok ((a, b), h)
    /\ type a = type this /\ type b = type o
    /\ content a h = content this h /\ content b h = content o h
    /\ valid a h = true /\ valid b h = true
    /\ (empty this = false -> a = this)
    /\ (empty o = false -> b = o).
Proof.
  intros Vthis Vo.
  destruct (swap_spec this o h Vthis Vo) as (x & y & E1 & Sx & Sy).
  assert (Vx : valid x h = true) by now rewrite (same_valid _ _ h Sx).
  assert (Vy : valid y h = true) by now rewrite (same_valid _ _ h Sy).
  destruct (swap_spec x y h Vx Vy) as (a & b & E2 & Sa & Sb).
  pose proof (same_trans _ _ _ Sa Sy) as Sat.
  pose proof (same_trans _ _ _ Sb Sx) as Sbo.
  exists a, b. rewrite (bind_Ok _ _ _ _ _ E1). cbn beta iota.
  unfold type, empty.
  rewrite (same_content _ _ h Sat), (same_content _ _ h Sbo),
    (same_valid _ _ h Sat), (same_valid _ _ h Sbo).
  repeat split; try assumption; try apply Sat; try apply Sbo.
  - intros N%bool_decide_eq_false. apply same_eq; [assumption|].
    destruct Sat as [-> _]. assumption.
  - intros N%bool_decide_eq_false. apply same_eq; [assumption|].
    destruct Sbo as [-> _]. assumption.
Qed.

Lemma swap_twice_restores_witness :
  exists a b,
    (both (x, y) <- swap sample_string AnyScalar_nil ;; swap x y) sample_store
    = Ok ((a, b), sample_store)
    /\ type a = type sample_string /\ type b = type AnyScalar_nil
    /\ content a sample_store = content sample_string sample_store
    /\ content b sample_store = content AnyScalar_nil sample_store
    /\ valid a sample_store = true /\ valid b sample_store = true
    /\ (empty sample_string = false -> a = sample_string)
    /\ (empty AnyScalar_nil = false -> b = AnyScalar_nil).
Proof.
  apply (swap_twice_restores sample_string AnyScalar_nil sample_store);
    vm_compute; reflexivity.
Defined.

(** ** C10: the move constructor *)

(** Moving from an object that holds no string copies the bytes and the
    code, and empties the source. *)
Lemma move_from_other (o : AnyScalar) (h : heap) :
  _stype o <> Some pvString ->
  AnyScalar_move o h
  = Ok (({| _stype := _stype o; _wrap := _wrap o |},
         {| _stype := None; _wrap := _wrap o |}), h).
Proof.
  intros N. unfold AnyScalar_move. now rewrite decide_False by assumption.
Qed.

(** C10.  Moving from an object whose code is [pvString] has no defined
    outcome, whatever its buffer and the store: the move assignment is
    applied to the uninitialised buffer of the object under construction,
    where no [std::string] was ever constructed. *)
Theorem move_from_string_is_undefined (w : storage) (h : heap) :
  AnyScalar_move {| _stype := Some pvString; _wrap := w |} h = Undefined.
Proof.
  unfold AnyScalar_move; cbn [_stype _wrap].
  now rewrite decide_True by reflexivity.
Qed.

(** The same at a concrete source, and a scalar source for comparison. *)
Example move_sample_string :
  AnyScalar_move sample_string sample_store = Undefined.
Proof. reflexivity. Qed.

Example move_sample_int :
  AnyScalar_move sample_int sample_store
  = Ok ((sample_int, {| _stype := None; _wrap := Pod Tint32 7 |}), sample_store).
Proof. reflexivity. Qed.

(** ** C8: the nanosecond split *)

Lemma ones_testbit (k i : Z) :
  0 <= k -> 0 <= i -> Z.testbit (Z.ones k) i = (i <? k).
Proof.
  intros Hk Hi. destruct (Z.ltb_spec i k).
  - apply Z.ones_spec_low. lia.
  - apply Z.ones_spec_high. lia.
Qed.

(** C8.  For a width [0 <= k <= 32] and a 32-bit nanoseconds value the
    split is defined; the tag is the low [k] bits of the nanoseconds at
    their own positions, the nanoseconds keep exactly the bits from
    position [k] upwards at their own positions and have zeros below, and
    the two parts add up to the original.  Width 20 on 0x12345678 gives
    tag 0x45678 and nanoseconds 0x12300000; width 0 changes nothing. *)
Theorem nsec_lsb_splits (k nsec : Z) :
  0 <= k <= 32 ->
  0 <= nsec < 2 ^ 32 ->
  exists tag ns,
    nsec_lsb k nsec = Some (tag, ns)
    /\ tag = nsec mod 2 ^ k
    /\ ns = nsec - nsec mod 2 ^ k
    /\ (forall i, 0 <= i -> Z.testbit tag i = (i <? k) && Z.testbit nsec i)
    /\ (forall i, 0 <= i -> Z.testbit ns i = (k <=? i) && Z.testbit nsec i)
    /\ 0 <= tag < 2 ^ k
    /\ 0 <= ns < 2 ^ 32
    /\ nsec_lsb 20 0x12345678 = Some (0x45678, 0x12300000)
    /\ nsec_lsb 0 nsec = Some (0, nsec).
Proof.
  intros Hk Hn. unfold nsec_lsb at 1.
  assert (R : (0 <=? k) && (k <=? 32) = true)
    by (apply andb_true_intro; split; apply Z.leb_le; lia).
  rewrite R. cbv zeta.
  assert (Hp : 0 < 2 ^ k) by (apply Z.pow_pos_nonneg; lia).
  assert (Hm : 0 <= nsec mod 2 ^ k < 2 ^ k) by (apply Z.mod_pos_bound; lia).
  assert (Hland : Z.land nsec (Z.ones k) = nsec mod 2 ^ k)
    by (apply Z.land_ones; lia).
  assert (Hdiff : Z.ldiff nsec (Z.ones k) = nsec - nsec mod 2 ^ k).
  { rewrite Z.ldiff_ones_r by lia.
    rewrite Z.shiftl_mul_pow2, Z.shiftr_div_pow2 by lia.
    pose proof (Z.div_mod nsec (2 ^ k)). lia. }
  exists (Z.land nsec (Z.ones k)), (Z.ldiff nsec (Z.ones k)).
  split; [reflexivity|].
  split; [exact Hland|]. split; [exact Hdiff|].
  split.
  { intros i Hi. rewrite Z.land_spec, ones_testbit by lia. apply andb_comm. }
  split.
  { intros i Hi. rewrite Z.ldiff_spec, ones_testbit by lia.
    rewrite andb_comm. f_equal. symmetry. apply Z.leb_antisym. }
  split; [rewrite Hland; lia|].
  split; [rewrite Hdiff; pose proof (Z.mod_le nsec (2 ^ k)); lia|].
  split; [reflexivity|].
  unfold nsec_lsb. cbn. f_equal. f_equal.
  - apply Z.land_0_r.
  - apply Z.ldiff_0_r.
Qed.

Lemma nsec_lsb_splits_witness :
  exists tag ns,
    nsec_lsb 16 0xFFFFFFFF = Some (tag, ns)
    /\ tag = 0xFFFFFFFF mod 2 ^ 16
    /\ ns = 0xFFFFFFFF - 0xFFFFFFFF mod 2 ^ 16
    /\ (forall i, 0 <= i -> Z.testbit tag i = (i <? 16) && Z.testbit 0xFFFFFFFF i)
    /\ (forall i, 0 <= i -> Z.testbit ns i = (16 <=? i) && Z.testbit 0xFFFFFFFF i)
    /\ 0 <= tag < 2 ^ 16
    /\ 0 <= ns < 2 ^ 32
    /\ nsec_lsb 20 0x12345678 = Some (0x45678, 0x12300000)
    /\ nsec_lsb 0 0xFFFFFFFF = Some (0, 0xFFFFFFFF).
Proof.
  apply (nsec_lsb_splits 16 0xFFFFFFFF); lia.
Defined.

(** A width outside [0 .. 32] is rejected. *)
Lemma nsec_lsb_out_of_range (k nsec : Z) :
  k < 0 \/ 32 < k -> nsec_lsb k nsec = None.
Proof.
  intros R. unfold nsec_lsb.
  destruct (Z.leb_spec 0 k), (Z.leb_spec k 32); try reflexivity; lia.
Qed.

(** ** C9: severity propagation *)

(** C9.  With severities between 0 and [worst]: when propagation is on,
    the field's severity becomes the larger of its own and the remote one;
    in the only-if-invalid mode the remote severity is taken over only
    when it is [worst], and the local one is kept otherwise; when off, the
    local one is kept.  The result is never below the local severity and
    never above [worst]. *)
Theorem propagate_sevr_maximizes (worst remote local : Z) (mode : sevr_mode) :
  0 <= remote <= worst ->
  0 <= local <= worst ->
  propagate_sevr worst sevr_on remote local = Z.max local remote
  /\ (remote = worst ->
      propagate_sevr worst sevr_onlyIfInvalid remote local = remote)
  /\ (remote <> worst ->
      propagate_sevr worst sevr_onlyIfInvalid remote local = local)
  /\ propagate_sevr worst sevr_off remote local = local
  /\ local <= propagate_sevr worst mode remote local <= worst.
Proof.
  intros Hr Hl. unfold propagate_sevr. repeat split.
  - intros ->. rewrite Z.eqb_refl. lia.
  - intros N. apply Z.eqb_neq in N. now rewrite N.
  - destruct mode; [lia|lia|]. destruct (remote =? worst); lia.
  - destruct mode; [lia|lia|]. destruct (remote =? worst); lia.
Qed.

Lemma propagate_sevr_maximizes_witness :
  propagate_sevr 3 sevr_on 2 1 = Z.max 1 2
  /\ (2 = 3 -> propagate_sevr 3 sevr_onlyIfInvalid 2 1 = 2)
  /\ (2 <> 3 -> propagate_sevr 3 sevr_onlyIfInvalid 2 1 = 1)
  /\ propagate_sevr 3 sevr_off 2 1 = 1
  /\ 1 <= propagate_sevr 3 sevr_onlyIfInvalid 2 1 <= 3.
Proof.
  apply (propagate_sevr_maximizes 3 2 1 sevr_onlyIfInvalid); lia.
Defined.

(** * Further properties of [AnyScalar] *)

(** ** Lifetimes: construction, copy, move and destruction *)

(** Construction followed by destruction gives every buffer back: the
    store ends exactly as it started, for every argument. *)
Theorem construct_then_destroy (v : argument) (h : heap) :
  (a <- AnyScalar_of v ;; AnyScalar_destroy a) h = Ok (tt, h).
Proof.
  assert (S : forall s,
    (a <- AnyScalar_of (arg_scalar (VString s)) ;; AnyScalar_destroy a) h
    = Ok (tt, h)).
  { intros s. unfold AnyScalar_of, placement_new, string_construct, bind, ret.
    cbn. unfold AnyScalar_destroy; cbn [_stype _wrap].
    rewrite decide_True by reflexivity.
    rewrite (string_destroy_live _ _ s) by apply lookup_insert_eq.
    now rewrite delete_insert_id by apply fresh_unused. }
  destruct v as [[t z|s]|s|s]; try apply S.
  unfold AnyScalar_of, bind, ret; cbn.
  unfold AnyScalar_destroy; cbn [_stype].
  rewrite decide_False by (destruct t; discriminate). reflexivity.
Qed.

(** The copy constructor, for a source of any code: the copy is valid and
    has the code and content of the source, which stays as it was; the
    store gains the copy's own buffer and nothing else; every [as<T>()]
    gives on the copy what it gives on the source; and destroying the copy
    puts the store back exactly. *)
Theorem copy_preserves_and_is_undone (o : AnyScalar) (h : heap) :
  valid o h = true ->
  exists c h1,
    AnyScalar_copy o h = Ok (c, h1)
    /\ valid c h1 = true
    /\ type c = type o
    /\ content c h1 = content o h
    /\ valid o h1 = true
    /\ content o h1 = content o h
    /\ owned c ## dom h
    /\ dom h1 = dom h ∪ owned c
    /\ (forall cast T, result (as_ cast T c h1) = result (as_ cast T o h))
    /\ AnyScalar_destroy c h1 = Ok (tt, h).
Proof.
  intros V.
  destruct (AnyScalar_copy_spec o h V)
    as (c & h1 & E & Vc & Tc & Cc & Fresh & Keep & Dom).
  destruct (preserved_frame o h h1 V Keep) as [Vo1 Co1].
  exists c, h1. unfold type.
  split; [assumption|]. split; [assumption|]. split; [assumption|].
  split; [assumption|]. split; [assumption|]. split; [assumption|].
  split; [now apply owned_fresh|]. split; [assumption|]. split.
  - intros cast T. rewrite !as_unfold, Tc, Cc.
    destruct (_stype o); [|reflexivity].
    destruct (content o h); [|reflexivity].
    now destruct (cast _ _ _).
  - clear Vc Tc Cc Fresh Keep Dom Vo1 Co1. apply valid_shape in V.
    destruct V as [w|q s Eq|k t z Ek]; unfold AnyScalar_copy in E;
      cbn [_stype _wrap] in E.
    + cbn in E. injection E as <- <-. reflexivity.
    + rewrite decide_True in E by reflexivity.
      unfold bind at 1 in E. rewrite (bind_Ok _ _ _ _ _ (string_value_live h q s Eq)) in E.
      unfold string_construct, ret in E. injection E as <- <-.
      unfold AnyScalar_destroy; cbn [_stype _wrap].
      rewrite decide_True by reflexivity.
      rewrite (string_destroy_live _ _ s) by apply lookup_insert_eq.
      now rewrite delete_insert_id by apply fresh_unused.
    + rewrite decide_False in E by (destruct k; discriminate).
      unfold bind, ret, memcpy in E. injection E as <- <-.
      unfold AnyScalar_destroy; cbn [_stype].
      now rewrite decide_False by (destruct k; discriminate).
Qed.

Lemma copy_preserves_and_is_undone_witness :
  exists c h1,
    AnyScalar_copy sample_string sample_store = Ok (c, h1)
    /\ valid c h1 = true
    /\ type c = type sample_string
    /\ content c h1 = content sample_string sample_store
    /\ valid sample_string h1 = true
    /\ content sample_string h1 = content sample_string sample_store
    /\ owned c ## dom sample_store
    /\ dom h1 = dom sample_store ∪ owned c
    /\ (forall cast T,
          result (as_ cast T c h1) = result (as_ cast T sample_string sample_store))
    /\ AnyScalar_destroy c h1 = Ok (tt, sample_store).
Proof.
  apply (copy_preserves_and_is_undone sample_string sample_store).
  vm_compute. reflexivity.
Defined.

(** The move constructor is undefined exactly for a source whose code is
    [pvString].  For any other valid source it leaves the store alone,
    yields the source's code and content in a valid object, and leaves the
    source empty, so that destroying the source afterwards does nothing. *)
Theorem move_defined_iff_not_string (o : AnyScalar) (h : heap) :
  (AnyScalar_move o h = Undefined <-> type o = Some pvString)
  /\ (valid o h = true -> type o <> Some pvString ->
      exists n o',
        AnyScalar_move o h = Ok ((n, o'), h)
        /\ valid n h = true
        /\ type n = type o
        /\ content n h = content o h
        /\ empty o' = true
        /\ valid o' h = true
        /\ AnyScalar_destroy o' h = Ok (tt, h)).
Proof.
  unfold type, AnyScalar_move. split.
  - destruct (decide (_stype o = Some pvString)) as [E|N].
    + split; [now intros _|reflexivity].
    + split; [discriminate|now intros E].
  - intros V N. rewrite decide_False by assumption.
    eexists _, _. split; [reflexivity|].
    destruct o as [st w]; cbn [_stype _wrap memcpy] in *.
    repeat split; assumption.
Qed.

Lemma move_defined_iff_not_string_witness :
  exists n o',
    AnyScalar_move sample_int sample_store = Ok ((n, o'), sample_store)
    /\ valid n sample_store = true
    /\ type n = type sample_int
    /\ content n sample_store = content sample_int sample_store
    /\ empty o' = true
    /\ valid o' sample_store = true
    /\ AnyScalar_destroy o' sample_store = Ok (tt, sample_store).
Proof.
  apply (move_defined_iff_not_string sample_int sample_store).
  - reflexivity.
  - discriminate.
Defined.

(** The destructor releases the buffer the object owns and no other: a
    second valid object that does not share that buffer stays valid and
    keeps its content. *)
Theorem destroy_releases_only_its_own (a b : AnyScalar) (h : heap) :
  valid a h = true ->
  valid b h = true ->
  (buffer b = None \/ buffer b <> buffer a) ->
  exists h',
    AnyScalar_destroy a h = Ok (tt, h')
    /\ dom h' = dom h ∖ owned a
    /\ valid b h' = true
    /\ content b h' = content b h.
Proof.
  intros Va Vb Sep.
  destruct (AnyScalar_destroy_spec a h Va) as (h' & E & Dom & Keep).
  exists h'. split; [assumption|]. split; [assumption|].
  assert (F : forall p, buffer b = Some p -> h' !! p = h !! p).
  { intros p B. apply Keep. destruct Sep as [N|N]; congruence. }
  destruct (frame b h h' F). split; congruence.
Qed.

Lemma destroy_releases_only_its_own_witness :
  exists h',
    AnyScalar_destroy sample_string sample_store = Ok (tt, h')
    /\ dom h' = dom sample_store ∖ owned sample_string
    /\ valid sample_int h' = true
    /\ content sample_int h' = content sample_int sample_store.
Proof.
  apply (destroy_releases_only_its_own sample_string sample_int sample_store).
  - vm_compute. reflexivity.
  - vm_compute. reflexivity.
  - left. reflexivity.
Defined.

(** ** Assignment and other objects *)

(** What both assignment operators do once the temporary exists: besides
    the facts of [swap_and_destroy], the target's new buffer is the
    temporary's, and buffers other than the target's old one keep their
    characters. *)
Lemma assign_from_temporary tmp this (h h1 : heap) :
  valid this h = true ->
  valid tmp h1 = true ->
  (forall p, buffer tmp = Some p -> h !! p = None) ->
  (forall p s, h !! p = Some s -> h1 !! p = Some s) ->
  dom h1 = dom h ∪ owned tmp ->
  exists this' h',
    (both (tmp', this') <- swap tmp this ;;
     AnyScalar_destroy tmp' ;;;
     ret this') h1 = Ok (this', h')
    /\ valid this' h' = true
    /\ _stype this' = _stype tmp
    /\ content this' h' = content tmp h1
    /\ dom h' = (dom h ∖ owned this) ∪ owned this'
    /\ (forall p, buffer this' = Some p -> h !! p = None)
    /\ (forall p s, h !! p = Some s -> buffer this <> Some p -> h' !! p = Some s).
Proof.
  intros Vthis Vtmp Fresh Keep1 Dom1.
  destruct (preserved_frame this h h1 Vthis Keep1) as [Vthis1 _].
  assert (D : forall p, buffer tmp = Some p -> buffer this <> Some p).
  { intros p B B'. destruct (buffer_live this h p Vthis B') as [s E].
    rewrite (Fresh p B) in E. discriminate. }
  destruct (swap_and_destroy tmp this h1 Vtmp Vthis1 D)
    as (this' & h' & E & S & V' & C' & Dom' & Keep').
  exists this', h'.
  split; [assumption|]. split; [assumption|].
  split; [now destruct S|]. split; [assumption|]. split; [|split].
  - rewrite Dom', Dom1, (same_owned _ _ S).
    pose proof (owned_fresh tmp h Fresh). pose proof (owned_live this h Vthis).
    set_solver.
  - intros p B. apply Fresh. now rewrite <- (same_buffer _ _ S).
  - intros p s Es N. rewrite Keep' by assumption. now apply Keep1.
Qed.

(** Assigning a value to one object does not disturb another: the target
    ends up valid with the value, in a buffer that was not in use before,
    and a second valid object that does not share the target's buffer stays
    valid and keeps its content. *)
Theorem assign_value_leaves_others (this b : AnyScalar) (v : argument) (h : heap) :
  valid this h = true ->
  valid b h = true ->
  (buffer b = None \/ buffer b <> buffer this) ->
  exists this' h',
    assign_value this v h = Ok (this', h')
    /\ valid this' h' = true
    /\ content this' h' = Some (to_storage_value v)
    /\ owned this' ## dom h
    /\ valid b h' = true
    /\ content b h' = content b h.
Proof.
  intros Vthis Vb Sep.
  destruct (AnyScalar_of_spec v h)
    as (tmp & h1 & Ec & Vtmp & Ttmp & Ctmp & Fresh & Keep1 & Dom1).
  destruct (assign_from_temporary tmp this h h1 Vthis Vtmp Fresh Keep1 Dom1)
    as (this' & h' & E & V' & T' & C' & Dom' & Fresh' & Keep').
  exists this', h'. unfold assign_value.
  rewrite (bind_Ok _ _ _ _ _ Ec), E.
  split; [reflexivity|]. split; [assumption|]. split; [congruence|].
  split; [now apply owned_fresh|].
  assert (F : forall p, buffer b = Some p -> h' !! p = h !! p).
  { intros p B. destruct (buffer_live b h p Vb B) as [s Es].
    rewrite Es. apply Keep'; [assumption|].
    destruct Sep as [N|N]; congruence. }
  destruct (frame b h h' F). split; congruence.
Qed.

Lemma assign_value_leaves_others_witness :
  exists this' h',
    assign_value sample_int (arg_char_ptr "xyz") sample_store = Ok (this', h')
    /\ valid this' h' = true
    /\ content this' h' = Some (VString "xyz")
    /\ owned this' ## dom sample_store
    /\ valid sample_string h' = true
    /\ content sample_string h' = content sample_string sample_store.
Proof.
  apply (assign_value_leaves_others sample_int sample_string
           (arg_char_ptr "xyz") sample_store).
  - vm_compute. reflexivity.
  - vm_compute. reflexivity.
  - right. discriminate.
Defined.

(** Assigning twice keeps only the second value: the object holds it with
    its code, and the store is the original one without the object's first
    buffer plus the final one; the buffer of the intermediate value is
    gone. *)
Theorem assign_value_twice (this : AnyScalar) (v1 v2 : argument) (h : heap) :
  valid this h = true ->
  exists a2 h2,
    (a1 <- assign_value this v1 ;; assign_value a1 v2) h = Ok (a2, h2)
    /\ valid a2 h2 = true
    /\ type a2
       = Some (ScalarTypeID (any_storage_type (strip_const (type_of_argument v2))))
    /\ content a2 h2 = Some (to_storage_value v2)
    /\ dom h2 = (dom h ∖ owned this) ∪ owned a2.
Proof.
  intros Vthis.
  destruct (AnyScalar_of_spec v1 h)
    as (tmp & h0 & Ec & Vtmp & Ttmp & Ctmp & Fresh & Keep0 & Dom0).
  destruct (assign_from_temporary tmp this h h0 Vthis Vtmp Fresh Keep0 Dom0)
    as (a1 & h1 & E1 & V1 & T1 & C1 & Dom1 & Fresh1 & Keep1).
  destruct (assign_value_spec a1 v2 h1 V1) as (a2 & h2 & E2 & V2 & T2 & C2 & Dom2).
  exists a2, h2.
  assert (EE : assign_value this v1 h = Ok (a1, h1)).
  { unfold assign_value. now rewrite (bind_Ok _ _ _ _ _ Ec). }
  rewrite (bind_Ok _ _ _ _ _ EE).
  split; [assumption|]. split; [assumption|]. split; [assumption|].
  split; [assumption|].
  rewrite Dom2, Dom1. pose proof (owned_fresh a1 h Fresh1). set_solver.
Qed.

Lemma assign_value_twice_witness :
  exists a2 h2,
    (a1 <- assign_value sample_string (arg_char_ptr "first") ;;
     assign_value a1 (arg_scalar (VPod Tdouble 0))) sample_store = Ok (a2, h2)
    /\ valid a2 h2 = true
    /\ type a2 = Some pvDouble
    /\ content a2 h2 = Some (VPod Tdouble 0)
    /\ dom h2 = (dom sample_store ∖ owned sample_string) ∪ owned a2.
Proof.
  apply (assign_value_twice sample_string (arg_char_ptr "first")
           (arg_scalar (VPod Tdouble 0)) sample_store).
  vm_compute. reflexivity.
Defined.

(** After [this = o] every [as<T>()] gives on the target what it gave on
    the source, whatever the conversion table; and the assignment copies a
    string deeply: the target's buffer was not in use before, and a string
    assigned afterwards through [ref] of the target or of a distinct
    source does not reach the other object. *)
Theorem assign_copies_deeply (this o : AnyScalar) (h : heap) :
  valid this h = true ->
  valid o h = true ->
  (buffer this = None \/ buffer this <> buffer o) ->
  exists this' h',
    assign this o h = Ok (this', h')
    /\ (forall cast T, result (as_ cast T this' h') = result (as_ cast T o h))
    /\ owned this' ## dom h
    /\ (type o = Some pvString ->
        forall x : string,
          (exists t2 h2,
             assign_through {| referent := std_string |} this' x h' = Ok (t2, h2)
             /\ content t2 h2 = Some (VString x)
             /\ content o h2 = content o h)
          /\ (exists o2 h2,
                assign_through {| referent := std_string |} o x h' = Ok (o2, h2)
                /\ content o2 h2 = Some (VString x)
                /\ content this' h2 = content o h)).
Proof.
  intros Vthis Vo Sep.
  destruct (AnyScalar_copy_spec o h Vo)
    as (tmp & h1 & Ec & Vtmp & Ttmp & Ctmp & Fresh & Keep1 & Dom1).
  destruct (assign_from_temporary tmp this h h1 Vthis Vtmp Fresh Keep1 Dom1)
    as (this' & h' & E & V' & T' & C' & Dom' & Fresh' & Keep').
  exists this', h'. unfold assign.
  rewrite (bind_Ok _ _ _ _ _ Ec), E.
  split; [reflexivity|].
  assert (Fo : forall p, buffer o = Some p -> h' !! p = h !! p).
  { intros p B. destruct (buffer_live o h p Vo B) as [s Es].
    rewrite Es. apply Keep'; [assumption|].
    destruct Sep as [N|N]; congruence. }
  destruct (frame o h h' Fo) as [Vo' Co'].
  split; [|split; [now apply owned_fresh|]].
  - intros cast T. rewrite !as_unfold, T', Ttmp, C', Ctmp.
    destruct (_stype o); [|reflexivity].
    destruct (content o h); [|reflexivity].
    now destruct (cast _ _ _).
  - unfold type. intros To x.
    assert (Tt : _stype this' = Some (ScalarTypeID std_string)) by (cbn; congruence).
    assert (Apart : forall p q, buffer this' = Some p -> buffer o = Some q -> p <> q).
    { intros p q Bp Bq ->. destruct (buffer_live o h q Vo Bq) as [s Es].
      rewrite (Fresh' q Bp) in Es. discriminate. }
    split.
    + destruct (assign_through_spec std_string this' x h' V' Tt)
        as (t2 & h2 & E2 & _ & _ & C2 & _ & _ & K2).
      exists t2, h2. split; [assumption|]. split; [assumption|].
      assert (F : forall r, buffer o = Some r -> h2 !! r = h' !! r).
      { intros r Br. apply K2. intros Bt. now apply (Apart r r). }
      destruct (frame o h' h2 F) as [_ ->]. assumption.
    + assert (Vo'' : valid o h' = true) by congruence.
      destruct (assign_through_spec std_string o x h' Vo'' To)
        as (o2 & h2 & E2 & _ & _ & C2 & _ & _ & K2).
      exists o2, h2. split; [assumption|]. split; [assumption|].
      assert (F : forall r, buffer this' = Some r -> h2 !! r = h' !! r).
      { intros r Br. apply K2. intros Bt. now apply (Apart r r). }
      destruct (frame this' h' h2 F) as [_ ->]. congruence.
Qed.

Lemma assign_copies_deeply_witness :
  exists this' h',
    assign sample_int sample_string sample_store = Ok (this', h')
    /\ (forall cast T,
          result (as_ cast T this' h')
          = result (as_ cast T sample_string sample_store))
    /\ owned this' ## dom sample_store
    /\ (type sample_string = Some pvString ->
        forall x : string,
          (exists t2 h2,
             assign_through {| referent := std_string |} this' x h' = Ok (t2, h2)
             /\ content t2 h2 = Some (VString x)
             /\ content sample_string h2 = content sample_string sample_store)
          /\ (exists o2 h2,
                assign_through {| referent := std_string |} sample_string x h'
                = Ok (o2, h2)
                /\ content o2 h2 = Some (VString x)
                /\ content this' h2 = content sample_string sample_store)).
Proof.
  apply (assign_copies_deeply sample_int sample_string sample_store).
  - vm_compute. reflexivity.
  - vm_compute. reflexivity.
  - left. reflexivity.
Defined.

(** ** Access through [ref] and [as] *)

(** Assigning through [ref<T>()] cannot break the invariant: the object
    stays valid with the same code and the same buffer and now holds the
    assigned value, no buffer is created or released, and a second valid
    object that does not share the buffer is unaffected. *)
Theorem assign_through_ref_is_local (T : template_arg) (a b : AnyScalar)
    (x : denote (any_storage_type (strip_const T))) (h : heap) :
  valid a h = true ->
  valid b h = true ->
  (buffer b = None \/ buffer b <> buffer a) ->
  type a = Some (ScalarTypeID (any_storage_type (strip_const T))) ->
  exists a2 h2,
    ref T a h = Ok ({| referent := any_storage_type (strip_const T) |}, h)
    /\ assign_through {| referent := any_storage_type (strip_const T) |} a x h
       = Ok (a2, h2)
    /\ valid a2 h2 = true
    /\ type a2 = type a
    /\ buffer a2 = buffer a
    /\ content a2 h2 = Some (to_value (any_storage_type (strip_const T)) x)
    /\ dom h2 = dom h
    /\ valid b h2 = true
    /\ content b h2 = content b h.
Proof.
  unfold type. intros Va Vb Sep Ta.
  destruct (assign_through_spec _ a x h Va Ta)
    as (a2 & h2 & E & V2 & T2 & C2 & B2 & Dom & Keep).
  exists a2, h2.
  split; [rewrite ref_unfold; now rewrite decide_True by assumption|].
  split; [assumption|]. split; [assumption|]. split; [assumption|].
  split; [assumption|]. split; [assumption|]. split; [assumption|].
  assert (F : forall p, buffer b = Some p -> h2 !! p = h !! p).
  { intros p B. apply Keep. destruct Sep as [N|N]; congruence. }
  destruct (frame b h h2 F). split; congruence.
Qed.

Lemma assign_through_ref_is_local_witness :
  exists a2 h2,
    ref {| is_const := false; unqualified := char_ptr |} sample_string sample_store
    = Ok ({| referent := std_string |}, sample_store)
    /\ assign_through {| referent := std_string |} sample_string "xyz"%string
         sample_store = Ok (a2, h2)
    /\ valid a2 h2 = true
    /\ type a2 = type sample_string
    /\ buffer a2 = buffer sample_string
    /\ content a2 h2 = Some (VString "xyz")
    /\ dom h2 = dom sample_store
    /\ valid sample_int h2 = true
    /\ content sample_int h2 = content sample_int sample_store.
Proof.
  apply (assign_through_ref_is_local
           {| is_const := false; unqualified := char_ptr |}
           sample_string sample_int "xyz"%string sample_store).
  - vm_compute. reflexivity.
  - vm_compute. reflexivity.
  - left. reflexivity.
  - reflexivity.
Defined.

Lemma same_as cast T a b (h : heap) :
  same a b -> as_ cast T a h = as_ cast T b h.
Proof.
  intros S. rewrite !as_unfold, (same_content _ _ h S).
  now destruct S as [-> _].
Qed.

Lemma same_ref T a b (h : heap) : same a b -> ref T a h = ref T b h.
Proof. intros [E _]. rewrite !ref_unfold. now rewrite E. Qed.

(** [swap] exchanges everything the accessors show: afterwards each
    operand answers [as<T>()], [ref<T>()] and the conversion to [bool] as
    the other did before, for every [T] and every conversion table. *)
Theorem swap_exchanges_reads (this o : AnyScalar) (h : heap) :
  valid this h = true ->
  valid o h = true ->
  exists this' o',
    swap this o h = Ok ((this', o'), h)
    /\ (forall cast T,
          as_ cast T this' h = as_ cast T o h
          /\ as_ cast T o' h = as_ cast T this h)
    /\ (forall T,
          ref T this' h = ref T o h /\ ref T o' h = ref T this h)
    /\ operator_bool this' = operator_bool o
    /\ operator_bool o' = operator_bool this.
Proof.
  intros Vthis Vo.
  destruct (swap_spec this o h Vthis Vo) as (this' & o' & E & S1 & S2).
  exists this', o'. split; [assumption|]. split; [|split].
  - intros cast T. split; now apply same_as.
  - intros T. split; now apply same_ref.
  - unfold operator_bool, empty.
    destruct S1 as [-> _], S2 as [-> _]. now split.
Qed.

Lemma swap_exchanges_reads_witness :
  exists this' o',
    swap sample_string sample_int sample_store = Ok ((this', o'), sample_store)
    /\ (forall cast T,
          as_ cast T this' sample_store = as_ cast T sample_int sample_store
          /\ as_ cast T o' sample_store = as_ cast T sample_string sample_store)
    /\ (forall T,
          ref T this' sample_store = ref T sample_int sample_store
          /\ ref T o' sample_store = ref T sample_string sample_store)
    /\ operator_bool this' = operator_bool sample_int
    /\ operator_bool o' = operator_bool sample_string.
Proof.
  apply (swap_exchanges_reads sample_string sample_int sample_store);
    vm_compute; reflexivity.
Defined.

Lemma construct_from_text_round_trip_witness :
  (exists a h',
     AnyScalar_of (arg_char_ptr "pv:name") (∅ : heap) = Ok (a, h')
     /\ AnyScalar_of (arg_scalar (VString "pv:name")) (∅ : heap) = Ok (a, h')
     /\ type a = Some pvString
     /\ as_ copy_only std_string a h' = Ok (VString "pv:name", h'))
  /\ (exists a h',
        AnyScalar_of (arg_const_char_ptr "pv:name") (∅ : heap) = Ok (a, h')
        /\ AnyScalar_of (arg_scalar (VString "pv:name")) (∅ : heap) = Ok (a, h')
        /\ type a = Some pvString
        /\ as_ copy_only std_string a h' = Ok (VString "pv:name", h')).
Proof.
  split.
  - apply (construct_from_text_round_trip copy_only copy_only_same_type
             "pv:name"%string ∅ (arg_char_ptr "pv:name")).
    left. reflexivity.
  - apply (construct_from_text_round_trip copy_only copy_only_same_type
             "pv:name"%string ∅ (arg_const_char_ptr "pv:name")).
    right. reflexivity.
Defined.

(** ** Stream output *)

(** Printing a valid object is always defined and leaves the store alone,
    provided each row of the type table pairs a code with the type it
    stands for.  An empty object, and an object whose code has no row, is
    printed as "(nil)"; an object whose code has a row is printed as its
    stored value. *)
Theorem operator_shl_prints_content_or_nil
    (pvatypemap : list (scalar_type * ScalarType)) (ostream : Type)
    (put_value : ostream -> value -> ostream)
    (put_text : ostream -> string -> ostream)
    (strm : ostream) (v : AnyScalar) (h : heap) :
  (forall row, In row pvatypemap -> fst row = ScalarTypeTraits (snd row)) ->
  valid v h = true ->
  exists out,
    operator_shl pvatypemap ostream put_value put_text strm v h = Ok (out, h)
    /\ (empty v = true -> out = put_text strm "(nil)"%string)
    /\ (forall c, type v = Some c ->
          (In c (List.map snd pvatypemap) ->
           exists x, content v h = Some x /\ out = put_value strm x)
          /\ (~ In c (List.map snd pvatypemap) ->
              out = put_text strm "(nil)"%string)).
Proof.
  intros Rows V. unfold operator_shl, type, empty.
  destruct (_stype v) as [c|] eqn:Tv.
  - assert (N : _stype v <> None) by congruence.
    destruct (content_valid v h V N) as [x C].
    destruct (List.find _ pvatypemap) as [[PVATYPE c']|] eqn:F.
    + apply List.find_some in F. destruct F as [I Fc].
      apply bool_decide_eq_true in Fc. cbn in Fc. subst c'.
      pose proof (Rows _ I) as R. cbn in R. subst PVATYPE.
      unfold bind. rewrite (load_content v c h Tv), C. unfold ret.
      eexists. split; [reflexivity|]. split.
      * intros B. apply bool_decide_eq_true in B. discriminate.
      * intros k [= <-]. split; [now exists x|].
        intros NI. destruct NI. apply List.in_map_iff. now exists (ScalarTypeTraits c, c).
    + eexists. split; [reflexivity|]. split; [reflexivity|].
      intros k [= <-]. split; [|reflexivity].
      intros I. apply List.in_map_iff in I. destruct I as ([P k] & Ek & I).
      cbn in Ek. subst k.
      pose proof (List.find_none _ _ F _ I) as Fc. cbn in Fc.
      apply bool_decide_eq_false in Fc. now destruct Fc.
  - eexists. split; [reflexivity|]. split; [reflexivity|]. discriminate.
Qed.

Lemma operator_shl_prints_content_or_nil_witness :
  exists out,
    operator_shl sample_typemap string sample_put_value sample_put_text
      "value: "%string sample_string sample_store = Ok (out, sample_store)
    /\ (empty sample_string = true -> out = sample_put_text "value: " "(nil)")
    /\ (forall c, type sample_string = Some c ->
          (In c (List.map snd sample_typemap) ->
           exists x, content sample_string sample_store = Some x
                     /\ out = sample_put_value "value: " x)
          /\ (~ In c (List.map snd sample_typemap) ->
              out = sample_put_text "value: " "(nil)")).
Proof.
  apply (operator_shl_prints_content_or_nil sample_typemap string
           sample_put_value sample_put_text "value: "%string
           sample_string sample_store).
  - intros row [<- | [<- | []]]; reflexivity.
  - vm_compute. reflexivity.
Defined.
